(** * falavox-server: the Palabra OAuth token cache, the translation-session
      service and the Agora task service

    A shallow embedding of

    - [PalabraOAuthService]   (services/palabraOAuthService.js),
    - [PalabraSessionService] (services/palabraSessionService.js),
    - [PalabraAgoraService]   (services/palabraAgoraService.js),

    and the properties of their token cache, session store and task store.

    The services are JavaScript classes with [async] methods.  A method is
    embedded as a value of the resumption type [task]: a tree whose nodes are
    the effects the method performs, in program order:

    - reading and writing the fields of the service singletons ([Get], [Put]),
    - reading the clock, [Date.now()] ([Now]),
    - an outbound HTTP call through axios whose promise the method awaits
      ([Await]), with the code after the [await] as the continuation,
    - [return] and [throw] ([Ret], [Throw]).

    Three semantics are given to a [task].  [run] executes one call from its
    start to its end, feeding it the outcome of each HTTP call; [step]
    executes a pool of calls in flight at once, the code between two awaits
    being one atomic step, as the JavaScript event loop does.  In both, the
    clock stands still within a synchronous segment: every [Date.now()] of
    the segment reads the same value.  [run_ticks] executes one call with a
    clock that can tick between any two reads: each [Date.now()] takes a
    reading of its own.  What is said about two readings of one segment is
    said on [run_ticks].  An await on a promise that is already settled (the
    call of an async method that returned or threw before reaching an HTTP
    call) continues within the same segment.

    Logging has no effect on the state and is left out, but for one thing:
    where an argument of the logger is [new Date(t).toISOString()], the
    rendering throws a RangeError when [t] is outside the range of [Date],
    and that throw is kept.  The token response carries [expires_in] as an
    integer number of seconds, as the wire contract of the token endpoint
    has it, or carries none that is a number. *)

From stdpp Require Import gmap strings list fin_maps.
From Stdlib Require Import ZArith Lia Ascii.

Open Scope string_scope.
Open Scope Z_scope.

(** ** Configuration ([config/index.js]) *)

(** [process.env.X] is a string or undefined. *)
Record Config := {
  clientId     : option string;   (* config.translation.oauth.clientId *)
  clientSecret : option string;   (* config.translation.oauth.clientSecret *)
  tokenUrl     : string;          (* config.translation.oauth.tokenUrl *)
  scope        : string;          (* config.translation.oauth.scope *)
  apiUrl       : string;          (* config.translation.apiUrl *)
  cacheTimeout : Z;               (* config.translation.session.cacheTimeout, ms *)
  maxSessions  : Z                (* config.translation.session.maxSessions *)
}.

(** JavaScript truthiness of a string-or-undefined value. *)
Definition truthy (v : option string) : bool :=
  match v with
  | Some s => negb (String.eqb s EmptyString)
  | None => false
  end.

(** Truthiness of a number-or-null value. *)
Definition truthyZ (v : option Z) : bool :=
  match v with
  | Some n => negb (n =? 0)
  | None => false
  end.

(** ** Data model *)

(** The [options] argument of [createSession]. *)
Record session_options := {
  audioFormat : option string;
  sampleRate  : option Z;
  channels    : option Z
}.

(** The [status] strings of the session service: a stored session carries
    ['active']; [getSessionStatus] reports ['inactive'] when there is none. *)
Inductive session_status := active | inactive.

(** [sessionData] of [createSession]. *)
Record session := {
  sessionId      : string;
  channel        : string;
  sourceLanguage : string;
  targetLanguage : string;
  streamUrl      : option string;
  websocketUrl   : option string;
  status         : session_status;
  createdAt      : Z;
  expiresAt      : Z;
  options        : session_options;
  accessToken    : string
}.

(** The value stored per channel by [PalabraAgoraService.storeTask]. *)
Record agora_task := {
  taskId        : string;
  taskCreatedAt : Z
}.

(** The mutable fields of the three service singletons. *)
Record state := {
  cachedToken    : option string;            (* PalabraOAuthService.cachedToken *)
  tokenExpiry    : option Z;                 (* PalabraOAuthService.tokenExpiry;
                                                [None] is null or NaN, both falsy
                                                wherever the field is read *)
  activeSessions : gmap string session;      (* PalabraSessionService.activeSessions *)
  activeTasks    : gmap string agora_task    (* PalabraAgoraService.activeTasks *)
}.

Definition initial_state : state :=
  {| cachedToken := None; tokenExpiry := None;
     activeSessions := ∅; activeTasks := ∅ |}.

Definition set_token (tok : option string) (exp : option Z) (st : state) : state :=
  {| cachedToken := tok; tokenExpiry := exp;
     activeSessions := activeSessions st; activeTasks := activeTasks st |}.

Definition set_sessions (m : gmap string session) (st : state) : state :=
  {| cachedToken := cachedToken st; tokenExpiry := tokenExpiry st;
     activeSessions := m; activeTasks := activeTasks st |}.

Definition set_tasks (m : gmap string agora_task) (st : state) : state :=
  {| cachedToken := cachedToken st; tokenExpiry := tokenExpiry st;
     activeSessions := activeSessions st; activeTasks := m |}.

(** ** The HTTP boundary (axios) *)

(** The body of [POST /sessions]. *)
Record session_request := {
  channel_name    : string;
  source_language : string;
  target_language : string;
  audio_format    : string;
  sample_rate     : Z;
  req_channels    : Z
}.

(** The outbound calls of the three services. *)
Inductive request :=
| PostToken (client_id client_secret : option string) (req_scope : string)
| PostSession (bearer : string) (body : session_request)
| DeleteSession (session_id : string) (bearer : string)
| DeleteAgoraTask (task_id : string).

(** [response.data] of a call that resolved.  [TokenDataNoExpiry] is a
    token body whose [expires_in] is missing or is not numeric, so that
    [expires_in * 1000] is NaN. *)
Inductive response_data :=
| TokenData (access_token : option string) (expires_in : Z)
| SessionData (session_id : option string) (stream_url websocket_url : option string)
| NoData
| TokenDataNoExpiry (access_token : option string).

(** The promise of an axios call resolves on a 2xx response and rejects on
    any other status ([http_status] is [Some code]) or on a network error or
    timeout ([None]); [message] is [error.message]. *)
Inductive http_result :=
| Resolved (data : response_data)
| Rejected (http_status : option Z) (message : string).

(** ** Asynchronous methods as resumptions *)

Inductive task (A : Type) : Type :=
| Ret (a : A)
| Throw (message : string)
| Get (k : state → task A)
| Put (st : state) (k : task A)
| Now (k : Z → task A)
| Await (req : request) (k : http_result → task A).

Arguments Ret {A} a.
Arguments Throw {A} message.
Arguments Get {A} k.
Arguments Put {A} st k.
Arguments Now {A} k.
Arguments Await {A} req k.

Fixpoint bind {A B} (t : task A) (f : A → task B) : task B :=
  match t with
  | Ret a => f a
  | Throw e => Throw e
  | Get k => Get (λ st, bind (k st) f)
  | Put st k => Put st (bind k f)
  | Now k => Now (λ n, bind (k n) f)
  | Await req k => Await req (λ r, bind (k r) f)
  end.

(** [try { t } catch (error) { h error.message }] *)
Fixpoint try_catch {A} (t : task A) (h : string → task A) : task A :=
  match t with
  | Ret a => Ret a
  | Throw e => h e
  | Get k => Get (λ st, try_catch (k st) h)
  | Put st k => Put st (try_catch k h)
  | Now k => Now (λ n, try_catch (k n) h)
  | Await req k => Await req (λ r, try_catch (k r) h)
  end.

Declare Scope task_scope.
Delimit Scope task_scope with task.
Notation "'let*' x ':=' t 'in' k" := (bind t (λ x, k))
  (at level 10, x name, t at level 100, k at level 200, only parsing) : task_scope.
Notation "t ;;; k" := (bind t (λ _, k))
  (at level 100, right associativity, only parsing) : task_scope.
Open Scope task_scope.

Definition get : task state := Get Ret.
Definition modify (f : state → state) : task unit := Get (λ st, Put (f st) (Ret tt)).
Definition date_now : task Z := Now Ret.

(** [await axios.post(...)] and [await axios.delete(...)]: the value of the
    await is the response, a rejection is thrown at the await. *)
Definition await (req : request) : task response_data :=
  Await req (λ r, match r with
                  | Resolved d => Ret d
                  | Rejected _ msg => Throw msg
                  end).

(** ** Running a task *)

Inductive outcome (A : Type) : Type :=
| Returned (a : A)            (* the promise of the call resolved with [a] *)
| Thrown (message : string).  (* it rejected with [new Error(message)] *)

Arguments Returned {A} a.
Arguments Thrown {A} message.

Record result (A : Type) : Type := {
  final : state;          (* the fields of the singletons afterwards *)
  out   : outcome A;
  calls : list request    (* the outbound HTTP calls, in order *)
}.

Arguments final {A} r.
Arguments out {A} r.
Arguments calls {A} r.

(** The remote side: how each outbound call settles, and the value of the
    clock when the awaiting method resumes.  Every axios call carries a
    timeout, so every call settles. *)
Definition provider : Type := request → http_result * Z.

(** One call executed alone, from its start with the clock at [now] to its
    end; no other call touches the singletons in between.  The clock stands
    still within a segment: every [Date.now()] before the first await reads
    [now], and every one after an await reads the time at which the provider
    settled the request. *)
Fixpoint run {A} (t : task A) (now : Z) (env : provider) (st : state) : result A :=
  match t with
  | Ret a => {| final := st; out := Returned a; calls := [] |}
  | Throw e => {| final := st; out := Thrown e; calls := [] |}
  | Get k => run (k st) now env st
  | Put st' k => run k now env st'
  | Now k => run (k now) now env st
  | Await req k =>
      let res := run (k (env req).1) (env req).2 env st in
      {| final := final res; out := out res; calls := req :: calls res |}
  end.

(** ** A clock that ticks *)

(** One call executed alone, each [Date.now()] taking the next reading of
    the clock: [clk i] is the value of the i-th read and [n] the number of
    reads made before the call.  Nothing is assumed of [clk]; a clock that
    does not go back is one with [clk i <= clk j] for [i <= j].  The times of
    the provider are not used. *)
Fixpoint run_ticks {A} (t : task A) (clk : nat → Z) (n : nat) (env : provider)
    (st : state) : result A :=
  match t with
  | Ret a => {| final := st; out := Returned a; calls := [] |}
  | Throw e => {| final := st; out := Thrown e; calls := [] |}
  | Get k => run_ticks (k st) clk n env st
  | Put st' k => run_ticks k clk n env st'
  | Now k => run_ticks (k (clk n)) clk (S n) env st
  | Await req k =>
      let res := run_ticks (k (env req).1) clk n env st in
      {| final := final res; out := out res; calls := req :: calls res |}
  end.

(** The number of reads of the clock made when the call has ended. *)
Fixpoint reads_after {A} (t : task A) (clk : nat → Z) (n : nat) (env : provider)
    (st : state) : nat :=
  match t with
  | Ret _ => n
  | Throw _ => n
  | Get k => reads_after (k st) clk n env st
  | Put st' k => reads_after k clk n env st'
  | Now k => reads_after (k (clk n)) clk (S n) env st
  | Await req k => reads_after (k (env req).1) clk n env st
  end.

(** ** Rendering a date *)

(** [new Date(t).toISOString()] returns for a time value [t] of at most
    8.64e15 milliseconds either side of the epoch, and throws
    [RangeError: Invalid time value] for any other. *)
Definition date_renders (t : Z) : bool :=
  (-8640000000000000 <=? t) && (t <=? 8640000000000000).

Section Services.

(** The configuration is read once, when the singletons are constructed. *)
Variable cfg : Config.

(** ** PalabraOAuthService *)

(** [isAvailable()] *)
Definition isAvailable : bool :=
  truthy (clientId cfg) && truthy (clientSecret cfg).

(** What [getValidToken] reads of the token response: [access_token], which
    [requestNewToken] has checked to be truthy, and [expires_in] (seconds),
    [None] when [expires_in * 1000] is NaN. *)
Record token_response := {
  access_token : string;
  expires_in   : option Z
}.

(** [requestNewToken()] *)
Definition requestNewToken : task token_response :=
  if negb isAvailable then Throw "OAuth service is not configured"
  else
    let* data := await (PostToken (clientId cfg) (clientSecret cfg) (scope cfg)) in
    match data with
    | TokenData (Some tok) secs =>
        if String.eqb tok EmptyString then Throw "Invalid token response from Palabra OAuth"
        else Ret {| access_token := tok; expires_in := Some secs |}
    | TokenDataNoExpiry (Some tok) =>
        if String.eqb tok EmptyString then Throw "Invalid token response from Palabra OAuth"
        else Ret {| access_token := tok; expires_in := None |}
    | _ => Throw "Invalid token response from Palabra OAuth"
    end.

(** The test of line 36,
    [this.cachedToken && this.tokenExpiry && Date.now() < this.tokenExpiry];
    the cached token when it holds. *)
Definition cached_valid (now : Z) (st : state) : option string :=
  match cachedToken st, tokenExpiry st with
  | Some tok, Some expiry =>
      if negb (String.eqb tok EmptyString) && negb (expiry =? 0) && (now <? expiry)
      then Some tok else None
  | _, _ => None
  end.

(** [getValidToken()].  The test of line 36 reads the clock when both
    fields are set, and not otherwise.  After the cache is written, line 51
    renders [this.tokenExpiry] for the logger, inside the [try]; a
    [tokenExpiry] that is NaN is not rendered either. *)
Definition getValidToken : task string :=
  try_catch
    (let* st := get in
     let* cached :=
       if truthy (cachedToken st) && truthyZ (tokenExpiry st)
       then let* now := date_now in Ret (cached_valid now st)
       else Ret None in
     match cached with
     | Some tok => Ret tok
     | None =>
         let* token := requestNewToken in
         let* now' := date_now in
         match expires_in token with
         | Some secs =>
             let expiry := now' + secs * 1000 - 5 * 60 * 1000 in
             modify (set_token (Some (access_token token)) (Some expiry)) ;;;
             if date_renders expiry then Ret (access_token token)
             else Throw "Invalid time value"
         | None =>
             modify (set_token (Some (access_token token)) None) ;;;
             Throw "Invalid time value"
         end
     end)
    (λ message, Throw ("OAuth token request failed: " +:+ message)).

(** [clearCachedToken()] *)
Definition clearCachedToken : task unit :=
  modify (set_token None None).

(** The object returned by [getTokenStatus]; [ts_expiresAt] is the time
    value that the ISO string of [expiresAt] renders. *)
Record token_status := {
  ts_hasToken     : bool;
  ts_isExpired    : bool;
  ts_expiresAt    : option Z;
  ts_isConfigured : bool
}.

(** [getTokenStatus()].  A [tokenExpiry] that is set and not zero is
    compared with the clock by line 113 and rendered by line 114, outside
    any [try]; otherwise the clock is not read. *)
Definition getTokenStatus : task token_status :=
  let* st := get in
  let status isExpired expiresAt :=
    {| ts_hasToken := truthy (cachedToken st);
       ts_isExpired := isExpired;
       ts_expiresAt := expiresAt;
       ts_isConfigured := isAvailable |} in
  if truthyZ (tokenExpiry st) then
    let* now := date_now in
    match tokenExpiry st with
    | Some e =>
        if date_renders e then Ret (status (e <=? now) (Some e))
        else Throw "Invalid time value"
    | None => Ret (status true None)
    end
  else Ret (status true None).

(** ** PalabraSessionService *)

(** [this.activeSessions.delete(channel)] *)
Definition delete_session (ch : string) (st : state) : state :=
  set_sessions (delete ch (activeSessions st)) st.

(** [getActiveSession(channel)] *)
Definition getActiveSession (ch : string) : task (option session) :=
  let* st := get in
  match activeSessions st !! ch with
  | None => Ret None
  | Some s =>
      let* now := date_now in
      if expiresAt s <=? now then
        modify (delete_session ch) ;;; Ret None
      else Ret (Some s)
  end.

(** The loop of [cleanupExpiredSessions]: every entry of the map is visited,
    and the entry is deleted by its key when [now >= session.expiresAt]. *)
Definition sweep (now : Z) (m : gmap string session) : gmap string session :=
  map_fold (λ ch s acc, if expiresAt s <=? now then delete ch acc else acc) m m.

(** [cleanupExpiredSessions()] *)
Definition cleanupExpiredSessions : task unit :=
  let* now := date_now in
  modify (λ st, set_sessions (sweep now (activeSessions st)) st).

(** [a || b] on a string-or-undefined and on a number-or-undefined. *)
Definition or_str (v : option string) (d : string) : string :=
  match v with
  | Some s => if String.eqb s EmptyString then d else s
  | None => d
  end.

Definition or_Z (v : option Z) (d : Z) : Z :=
  match v with
  | Some n => if n =? 0 then d else n
  | None => d
  end.

(** The capacity check of [createSession], lines 168-174. *)
Definition check_session_limit : task unit :=
  let* st := get in
  if maxSessions cfg <=? Z.of_nat (size (activeSessions st)) then
    cleanupExpiredSessions ;;;
    let* st' := get in
    if maxSessions cfg <=? Z.of_nat (size (activeSessions st')) then
      Throw "Maximum number of active sessions reached"
    else Ret tt
  else Ret tt.

(** [createSession(channel, sourceLanguage, targetLanguage, options)].
    The request body is kept to the six keys the method sets itself; the
    keys spread from [options] after them are not recorded.  [createdAt] and
    [expiresAt] come from two reads of the clock, lines 220 and 221.  After
    the session is stored, line 232 renders its [expiresAt] for the logger,
    inside the [try]. *)
Definition createSession (ch src tgt : string) (opts : session_options)
    : task session :=
  try_catch
    (if negb isAvailable then Throw "Palabra session service is not configured"
     else
       let* existingSession := getActiveSession ch in
       match existingSession with
       | Some s => Ret s
       | None =>
           check_session_limit ;;;
           let* token := getValidToken in
           let sessionRequest :=
             {| channel_name := ch;
                source_language := src;
                target_language := tgt;
                audio_format := or_str (audioFormat opts) "pcm";
                sample_rate := or_Z (sampleRate opts) 16000;
                req_channels := or_Z (channels opts) 1 |} in
           let* data := await (PostSession token sessionRequest) in
           match data with
           | SessionData (Some sid) stream ws =>
               if String.eqb sid EmptyString then Throw "Invalid session response from Palabra"
               else
                 let* created := date_now in
                 let* now := date_now in
                 let sessionData :=
                   {| sessionId := sid;
                      channel := ch;
                      sourceLanguage := src;
                      targetLanguage := tgt;
                      streamUrl := stream;
                      websocketUrl := ws;
                      status := active;
                      createdAt := created;
                      expiresAt := now + cacheTimeout cfg;
                      options := opts;
                      accessToken := token |} in
                 modify (λ st, set_sessions (<[ch := sessionData]> (activeSessions st)) st) ;;;
                 if date_renders (expiresAt sessionData) then Ret sessionData
                 else Throw "Invalid time value"
           | _ => Throw "Invalid session response from Palabra"
           end
       end)
    (λ message, Throw ("Session creation failed: " +:+ message)).

(** [endSession(channel)] *)
Definition endSession (ch : string) : task bool :=
  try_catch
    (let* st := get in
     match activeSessions st !! ch with
     | None => Ret false
     | Some s =>
         let* _ := await (DeleteSession (sessionId s) (accessToken s)) in
         modify (delete_session ch) ;;;
         Ret true
     end)
    (λ _, modify (delete_session ch) ;;; Ret false).

(** [v || null] *)
Definition or_null_str (v : option string) : option string :=
  if truthy v then v else None.

Definition or_null_Z (v : option Z) : option Z :=
  if truthyZ v then v else None.

(** The object returned by [getSessionStatus]. *)
Record session_status_info := {
  hasSession        : bool;
  info_sessionId    : option string;
  info_status       : session_status;
  info_source       : option string;
  info_target       : option string;
  info_streamUrl    : option string;
  info_websocketUrl : option string;
  info_createdAt    : option Z;
  info_expiresAt    : option Z;
  info_isExpired    : bool
}.

(** [getSessionStatus(channel)].  Line 338 reads the clock again when there
    is a session, and not otherwise. *)
Definition getSessionStatus (ch : string) : task session_status_info :=
  let* session := getActiveSession ch in
  let* isExpired :=
    match session with
    | Some s => let* now := date_now in Ret (expiresAt s <=? now)
    | None => Ret true
    end in
  Ret {| hasSession := bool_decide (is_Some session);
         info_sessionId := or_null_str (sessionId <$> session);
         info_status := default inactive (status <$> session);
         info_source := or_null_str (sourceLanguage <$> session);
         info_target := or_null_str (targetLanguage <$> session);
         info_streamUrl := or_null_str (session ≫= streamUrl);
         info_websocketUrl := or_null_str (session ≫= websocketUrl);
         info_createdAt := or_null_Z (createdAt <$> session);
         info_expiresAt := or_null_Z (expiresAt <$> session);
         info_isExpired := isExpired |}.

(** An element of the array returned by [getAllActiveSessions]. *)
Record session_summary := {
  sum_channel   : string;
  sum_sessionId : string;
  sum_source    : string;
  sum_target    : string;
  sum_status    : session_status;
  sum_createdAt : Z;
  sum_expiresAt : Z
}.

Definition summary (ch : string) (s : session) : session_summary :=
  {| sum_channel := ch;
     sum_sessionId := sessionId s;
     sum_source := sourceLanguage s;
     sum_target := targetLanguage s;
     sum_status := status s;
     sum_createdAt := createdAt s;
     sum_expiresAt := expiresAt s |}.

(** The loop of [getAllActiveSessions] over the entries of the map, with
    [sessions] the array built so far. *)
Fixpoint collect_active (entries : list (string * session))
    (sessions : list session_summary) : task (list session_summary) :=
  match entries with
  | [] => Ret sessions
  | (ch, s) :: rest =>
      let* now := date_now in
      if now <? expiresAt s then collect_active rest (sessions ++ [summary ch s])
      else collect_active rest sessions
  end.

(** [getAllActiveSessions()].  The entries are visited in the order of
    [map_to_list]; the insertion order of the JavaScript [Map] is not
    recorded by the model. *)
Definition getAllActiveSessions : task (list session_summary) :=
  let* st := get in
  collect_active (map_to_list (activeSessions st)) [].

(** The object returned by [getStats]. *)
Record stats := {
  stats_activeSessions : nat;
  stats_maxSessions    : Z;
  stats_cacheTimeout   : Z;
  stats_isConfigured   : bool;
  stats_sessions       : list session_summary
}.

(** [getStats()] *)
Definition getStats : task stats :=
  let* st := get in
  let* sessions := getAllActiveSessions in
  Ret {| stats_activeSessions := size (activeSessions st);
         stats_maxSessions := maxSessions cfg;
         stats_cacheTimeout := cacheTimeout cfg;
         stats_isConfigured := isAvailable;
         stats_sessions := sessions |}.

(** ** PalabraAgoraService *)

(** [s.replace(/\/$/, '')]: one trailing slash is removed. *)
Fixpoint strip_trailing_slash (s : string) : string :=
  match s with
  | EmptyString => EmptyString
  | String c EmptyString => if Ascii.eqb c "/"%char then EmptyString else s
  | String c rest => String c (strip_trailing_slash rest)
  end.

(** [this.baseUrl] *)
Definition baseUrl : string := strip_trailing_slash (apiUrl cfg).

(** [isConfigured()] *)
Definition isConfigured : bool :=
  truthy (clientId cfg) && truthy (clientSecret cfg) && truthy (Some baseUrl).

(** [storeTask(channel, taskInfo)], with [task_id] the value of
    [taskInfo?.data?.task_id || taskInfo?.task_id]. *)
Definition storeTask (ch : string) (task_id : option string) : task unit :=
  match task_id with
  | Some id =>
      if String.eqb ch EmptyString || String.eqb id EmptyString then Ret tt
      else
        let* now := date_now in
        modify (λ st, set_tasks (<[ch := {| taskId := id; taskCreatedAt := now |}]>
                                   (activeTasks st)) st)
  | None => Ret tt
  end.

(** [getTask(channel)] *)
Definition getTask (ch : string) : task (option agora_task) :=
  let* st := get in
  Ret (activeTasks st !! ch).

(** [this.activeTasks.delete(channel)] *)
Definition delete_task (ch : string) (st : state) : state :=
  set_tasks (delete ch (activeTasks st)) st.

(** [stopTranslationTask(channel)] *)
Definition stopTranslationTask (ch : string) : task bool :=
  if negb isConfigured then
    Throw "Palabra Agora service is not configured (missing ClientID/ClientSecret)"
  else
    let* stored := getTask ch in
    match stored with
    | None => Ret false
    | Some t =>
        try_catch
          (let* _ := await (DeleteAgoraTask (taskId t)) in
           modify (delete_task ch) ;;;
           Ret true)
          (λ _, modify (delete_task ch) ;;; Ret false)
    end.

End Services.

(** ** Calls in flight: the event loop *)

(** Where a call stands when a synchronous segment of it ends. *)
Inductive progress (A : Type) : Type :=
| Finished (o : outcome A)
| Awaiting (req : request) (k : http_result → task A).

Arguments Finished {A} o.
Arguments Awaiting {A} req k.

(** One synchronous segment: the task is executed, with the clock standing
    at [now], up to its end or to its next await. *)
Fixpoint advance {A} (t : task A) (now : Z) (st : state) : state * progress A :=
  match t with
  | Ret a => (st, Finished (Returned a))
  | Throw e => (st, Finished (Thrown e))
  | Get k => advance (k st) now st
  | Put st' k => advance k now st'
  | Now k => advance (k now) now st
  | Await req k => (st, Awaiting req k)
  end.

(** The request a segment has just sent, if it ended at an await. *)
Definition sent_by {A} (p : progress A) : list request :=
  match p with
  | Awaiting req _ => [req]
  | Finished _ => []
  end.

(** The calls of one method that are in flight over the shared singletons:
    [pool !! i] is the i-th call invoked, [sent] the requests sent so far. *)
Record system (A : Type) : Type := {
  shared : state;
  pool   : list (progress A);
  sent   : list request
}.

Arguments shared {A} s.
Arguments pool {A} s.
Arguments sent {A} s.

Definition idle (A : Type) (st : state) : system A :=
  {| shared := st; pool := []; sent := [] |}.

(** What the event loop runs next: a new call is invoked, or the response to
    the request of call [i] arrives and the call resumes. *)
Inductive event (A : Type) : Type :=
| Invoke (t : task A) (now : Z)
| Deliver (i : nat) (r : http_result) (now : Z).

Arguments Invoke {A} t now.
Arguments Deliver {A} i r now.

Definition step {A} (sys : system A) (ev : event A) : system A :=
  match ev with
  | Invoke t now =>
      let '(st, p) := advance t now (shared sys) in
      {| shared := st; pool := pool sys ++ [p]; sent := sent sys ++ sent_by p |}
  | Deliver i r now =>
      match pool sys !! i with
      | Some (Awaiting _ k) =>
          let '(st, p) := advance (k r) now (shared sys) in
          {| shared := st; pool := <[i := p]> (pool sys);
             sent := sent sys ++ sent_by p |}
      | _ => sys
      end
  end.

Definition exec {A} (sys : system A) (evs : list (event A)) : system A :=
  fold_left step evs sys.

(** ** Sequences of calls *)

(** The entry points of the three services, as the controllers, the socket
    handlers and the cleanup timer call them. *)
Inductive api_call :=
| CallCreateSession (ch src tgt : string) (opts : session_options)
| CallEndSession (ch : string)
| CallGetActiveSession (ch : string)
| CallGetSessionStatus (ch : string)
| CallGetAllActiveSessions
| CallGetStats
| CallCleanupExpiredSessions
| CallGetValidToken
| CallClearCachedToken
| CallGetTokenStatus
| CallStoreTask (ch : string) (task_id : option string)
| CallStopTranslationTask (ch : string).

(** The singletons after one call that ran alone. *)
Definition after (cfg : Config) (c : api_call) (now : Z) (env : provider)
    (st : state) : state :=
  match c with
  | CallCreateSession ch src tgt opts =>
      final (run (createSession cfg ch src tgt opts) now env st)
  | CallEndSession ch => final (run (endSession ch) now env st)
  | CallGetActiveSession ch => final (run (getActiveSession ch) now env st)
  | CallGetSessionStatus ch => final (run (getSessionStatus ch) now env st)
  | CallGetAllActiveSessions => final (run getAllActiveSessions now env st)
  | CallGetStats => final (run (getStats cfg) now env st)
  | CallCleanupExpiredSessions => final (run cleanupExpiredSessions now env st)
  | CallGetValidToken => final (run (getValidToken cfg) now env st)
  | CallClearCachedToken => final (run clearCachedToken now env st)
  | CallGetTokenStatus => final (run (getTokenStatus cfg) now env st)
  | CallStoreTask ch task_id => final (run (storeTask ch task_id) now env st)
  | CallStopTranslationTask ch => final (run (stopTranslationTask cfg ch) now env st)
  end.

(** The states the process reaches from its start when the calls do not
    overlap: each runs to its end before the next begins. *)
Inductive reachable (cfg : Config) : state → Prop :=
| reachable_initial : reachable cfg initial_state
| reachable_after c now env st :
    reachable cfg st → reachable cfg (after cfg c now env st).

(** The singletons after one call that ran alone on a clock that ticks. *)
Definition after_ticks (cfg : Config) (c : api_call) (clk : nat → Z) (n : nat)
    (env : provider) (st : state) : state :=
  match c with
  | CallCreateSession ch src tgt opts =>
      final (run_ticks (createSession cfg ch src tgt opts) clk n env st)
  | CallEndSession ch => final (run_ticks (endSession ch) clk n env st)
  | CallGetActiveSession ch => final (run_ticks (getActiveSession ch) clk n env st)
  | CallGetSessionStatus ch => final (run_ticks (getSessionStatus ch) clk n env st)
  | CallGetAllActiveSessions => final (run_ticks getAllActiveSessions clk n env st)
  | CallGetStats => final (run_ticks (getStats cfg) clk n env st)
  | CallCleanupExpiredSessions => final (run_ticks cleanupExpiredSessions clk n env st)
  | CallGetValidToken => final (run_ticks (getValidToken cfg) clk n env st)
  | CallClearCachedToken => final (run_ticks clearCachedToken clk n env st)
  | CallGetTokenStatus => final (run_ticks (getTokenStatus cfg) clk n env st)
  | CallStoreTask ch task_id => final (run_ticks (storeTask ch task_id) clk n env st)
  | CallStopTranslationTask ch =>
      final (run_ticks (stopTranslationTask cfg ch) clk n env st)
  end.

(** The states the process reaches from its start, on a clock that ticks,
    when the calls do not overlap. *)
Inductive reachable_ticks (cfg : Config) : state → Prop :=
| reachable_ticks_initial : reachable_ticks cfg initial_state
| reachable_ticks_after c clk n env st :
    reachable_ticks cfg st → reachable_ticks cfg (after_ticks cfg c clk n env st).

(** The sessions of the store that have not expired at [now]. *)
Definition live (now : Z) (m : gmap string session) : gmap string session :=
  filter (λ p, now < expiresAt p.2) m.

(** A response to [POST /sessions] that [createSession] accepts: the call
    resolved and the body carries a session id. *)
Definition session_ok (r : http_result) : bool :=
  match r with
  | Resolved (SessionData sid _ _) => truthy sid
  | _ => false
  end.

(** [true] when the promise of an HTTP call resolved. *)
Definition resolved (r : http_result) : bool :=
  match r with
  | Resolved _ => true
  | Rejected _ _ => false
  end.

(** The token and lifetime [requestNewToken] returns on a response; the
    lifetime is [None] when [expires_in * 1000] is NaN. *)
Definition accepted_token (r : http_result) : option (string * option Z) :=
  match r with
  | Resolved (TokenData (Some tok) secs) =>
      if String.eqb tok EmptyString then None else Some (tok, Some secs)
  | Resolved (TokenDataNoExpiry (Some tok)) =>
      if String.eqb tok EmptyString then None else Some (tok, None)
  | _ => None
  end.

(** The message of the error [requestNewToken] throws on any other
    response. *)
Definition token_error (r : http_result) : string :=
  match r with
  | Rejected _ msg => msg
  | Resolved _ => "Invalid token response from Palabra OAuth"
  end.

(** The message of the error thrown inside [createSession] when the session
    request fails. *)
Definition start_error (r : http_result) : string :=
  match r with
  | Rejected _ msg => msg
  | Resolved _ => "Invalid session response from Palabra"
  end.

(** The token test as the specification words it: a cached token exists and
    [now < expiresAt - safetyMargin], the margin being five minutes. *)
Definition safetyMargin : Z := 5 * 60 * 1000.

Definition spec_token_fresh (now : Z) (st : state) : bool :=
  match cachedToken st, tokenExpiry st with
  | Some _, Some e => now <? e - safetyMargin
  | _, _ => false
  end.

(** ** Concrete configurations, providers and states *)

Definition cfg_one : Config :=
  {| clientId := Some "client"; clientSecret := Some "secret";
     tokenUrl := "https://api.palabra.ai/v1/oauth/token";
     scope := "translation:stream"; apiUrl := "https://api.palabra.ai";
     cacheTimeout := 3600000; maxSessions := 1 |}.

Definition no_options : session_options :=
  {| audioFormat := None; sampleRate := None; channels := None |}.

(** Every call succeeds; a session id is derived from the channel. *)
Definition env_ok : provider := λ req,
  match req with
  | PostToken _ _ _ => (Resolved (TokenData (Some "tok") 3600), 1100)
  | PostSession _ body =>
      (Resolved (SessionData (Some ("sid-" +:+ channel_name body)) None None), 1200)
  | DeleteSession _ _ => (Resolved NoData, 1300)
  | DeleteAgoraTask _ => (Resolved NoData, 1300)
  end.

(** The session request is answered 500, the task deletion 404. *)
Definition env_failing : provider := λ req,
  match req with
  | PostToken _ _ _ => (Resolved (TokenData (Some "tok") 3600), 1100)
  | PostSession _ _ => (Rejected (Some 500) "Request failed with status code 500", 1200)
  | DeleteSession _ _ => (Rejected None "timeout of 10000ms exceeded", 11300)
  | DeleteAgoraTask _ => (Rejected (Some 404) "Request failed with status code 404", 1300)
  end.

Definition session_room1 : session :=
  {| sessionId := "sid-room1"; channel := "room1";
     sourceLanguage := "en"; targetLanguage := "es";
     streamUrl := None; websocketUrl := None; status := active;
     createdAt := 1200; expiresAt := 3601200;
     options := no_options; accessToken := "tok" |}.

(** [room1] holds a session and [room2] a task; a token is cached until
    1000000. *)
Definition st_room1 : state :=
  {| cachedToken := Some "tok"; tokenExpiry := Some 1000000;
     activeSessions := {[ "room1" := session_room1 ]};
     activeTasks := {[ "room2" := {| taskId := "t1"; taskCreatedAt := 1500 |} ]} |}.

(** Two starts and a stop that follow one another. *)
Definition st_two_starts : state :=
  after cfg_one (CallCreateSession "room1" "en" "es" no_options) 1000 env_ok
    initial_state.

(** Two starts in flight at once, for two channels. *)
Definition overlapping_starts : list (event session) :=
  [ Invoke (createSession cfg_one "room1" "en" "es" no_options) 1000;
    Invoke (createSession cfg_one "room2" "en" "fr" no_options) 1001;
    Deliver 0 (Resolved (TokenData (Some "tok") 3600)) 1100;
    Deliver 1 (Resolved (TokenData (Some "tok") 3600)) 1101;
    Deliver 0 (Resolved (SessionData (Some "sid-room1") None None)) 1200;
    Deliver 1 (Resolved (SessionData (Some "sid-room2") None None)) 1201 ].

(** What holds of every stored session between calls that do not overlap:
    it was built by [createSession], on a configured service, for the
    channel it is stored under, from a response that carried a session id. *)
Definition store_ok (cfg : Config) (m : gmap string session) : Prop :=
  ∀ k s, m !! k = Some s →
    isAvailable cfg = true ∧ channel s = k ∧ status s = active ∧
    sessionId s ≠ EmptyString.

(** A clock that reads 1198, then 1199, and 1200 from then on. *)
Definition clock_settling : nat → Z := λ i, 1198 + Z.of_nat (Nat.min i 2).

(** The session that a start for [room1] stores on that clock, and the
    state after that start. *)
Definition session_settled : session :=
  {| sessionId := "sid-room1"; channel := "room1";
     sourceLanguage := "en"; targetLanguage := "es";
     streamUrl := None; websocketUrl := None; status := active;
     createdAt := 1199; expiresAt := 3601200;
     options := no_options; accessToken := "tok" |}.

Definition st_settled : state :=
  after_ticks cfg_one (CallCreateSession "room1" "en" "es" no_options)
    clock_settling 0 env_ok initial_state.

(** ** JavaScript values at the HTTP and socket boundary *)

(** What a field of [req.query], of [req.body] or of a socket payload can
    hold.  Numbers are integers or NaN; a string is a sequence of code units
    below 256. *)
Inductive js_value :=
| JsUndefined
| JsNull
| JsBool (b : bool)
| JsNumber (n : Z)
| JsNaN
| JsString (s : string)
| JsObject.                      (* an object or an array *)

(** [!!v] *)
Definition js_truthy (v : js_value) : bool :=
  match v with
  | JsUndefined | JsNull | JsNaN => false
  | JsBool b => b
  | JsNumber n => negb (n =? 0)
  | JsString s => negb (String.eqb s EmptyString)
  | JsObject => true
  end.

(** ** Language codes
    ([TranslationSessionController.isValidLanguageCode] and the function of
    the same name and body in [socketHandlers.js]) *)

Definition is_lower (c : ascii) : bool :=
  (97 <=? nat_of_ascii c)%nat && (nat_of_ascii c <=? 122)%nat.

Definition is_upper (c : ascii) : bool :=
  (65 <=? nat_of_ascii c)%nat && (nat_of_ascii c <=? 90)%nat.

(** [/^[a-z]{2}(-[A-Z]{2})?$/.test(s)] *)
Definition language_pattern (s : string) : bool :=
  match s with
  | String a (String b rest) =>
      is_lower a && is_lower b &&
      match rest with
      | EmptyString => true
      | String d (String e (String f EmptyString)) =>
          Ascii.eqb d "-"%char && is_upper e && is_upper f
      | _ => false
      end
  | _ => false
  end.

(** [isValidLanguageCode(languageCode)] *)
Definition isValidLanguageCode (v : js_value) : bool :=
  match v with
  | JsString s =>
      (2 <=? String.length s)%nat && (String.length s <=? 5)%nat && language_pattern s
  | _ => false
  end.

(** ** TranslationService ([services/translationService.js]) *)

Module TranslationService.

(** [isValidLanguageCode(languageCode)] of the service: the length test
    alone. *)
Definition isValidLanguageCode (v : js_value) : bool :=
  match v with
  | JsString s => (2 <=? String.length s)%nat && (String.length s <=? 5)%nat
  | _ => false
  end.

End TranslationService.

(** ** TokenService ([services/tokenService.js]) *)

(** [config.agora] and [config.token]. *)
Record TokenConfig := {
  appId                : string;
  appCert              : string;
  defaultExpireSeconds : Z;
  defaultUidRange      : Z
}.

(** The object returned by [generateToken]. *)
Record token_data := {
  td_token       : string;
  td_uid         : Z;
  td_channel     : string;
  td_expiresAt   : Z;
  td_generatedAt : Z
}.

(** The object returned by [validateTokenParams]. *)
Record validation := {
  isValid : bool;
  errors  : list string
}.

(** [validateTokenParams(channel, uid)] *)
Definition validateTokenParams (ch uid : js_value) : validation :=
  let errors1 :=
    match ch with
    | JsString s =>
        if String.eqb s EmptyString
        then ["Channel name is required and must be a string"] else []
    | _ => ["Channel name is required and must be a string"]
    end in
  let errors2 :=
    match uid with
    | JsNull | JsUndefined | JsNaN => []
    | JsNumber n => if n <? 0 then ["UID must be a positive number"] else []
    | _ => ["UID must be a positive number"]
    end in
  let errors := (errors1 ++ errors2)%list in
  {| isValid := (length errors =? 0)%nat; errors := errors |}.

(** What a handler sends: [res.status(code).json({success, error, message,
    details, data})], the status being 200 when the handler sets none. *)
Record reply (D : Type) : Type := {
  reply_code    : Z;
  reply_success : bool;
  reply_error   : option string;
  reply_message : option string;
  reply_details : list string;
  reply_data    : option D
}.

Arguments reply_code {D} r.
Arguments reply_success {D} r.
Arguments reply_error {D} r.
Arguments reply_message {D} r.
Arguments reply_details {D} r.
Arguments reply_data {D} r.

Definition reply_ok {D} (d : option D) (msg : option string) : reply D :=
  {| reply_code := 200; reply_success := true; reply_error := None;
     reply_message := msg; reply_details := []; reply_data := d |}.

Definition reply_fail {D} (code : Z) (err : string) (msg : option string)
    (details : list string) : reply D :=
  {| reply_code := code; reply_success := false; reply_error := Some err;
     reply_message := msg; reply_details := details; reply_data := None |}.

Section TokenService.

Variable tcfg : TokenConfig.

(** [RtcTokenBuilder.buildTokenWithUid(appId, appCert, channel, uid,
    RtcRole.PUBLISHER, privilegeTs)] of the package agora-access-token: it
    returns a token, or throws (a RangeError when a number does not fit the
    32 bits the token gives it). *)
Variable buildTokenWithUid : string → string → string → Z → Z → outcome string.

(** [generateToken(channel, uid, expireSeconds)].  [uid] and
    [expireSeconds] are a number, or [None] for null, undefined and NaN;
    [rnd] is the value of
    [Math.floor(Math.random() * config.token.defaultUidRange)] and [now] the
    value of [Date.now()]. *)
Definition generateToken (ch : js_value) (uid expireSeconds : option Z)
    (rnd now : Z) : outcome token_data :=
  match ch with
  | JsString s =>
      if String.eqb s EmptyString then
        Thrown "Token generation failed: Channel name is required and must be a string"
      else
        let finalUid := or_Z uid rnd in
        let finalExpireSeconds := or_Z expireSeconds (defaultExpireSeconds tcfg) in
        let currentTs := now / 1000 in
        let privilegeTs := currentTs + finalExpireSeconds in
        match buildTokenWithUid (appId tcfg) (appCert tcfg) s finalUid privilegeTs with
        | Returned token =>
            Returned {| td_token := token;
                        td_uid := finalUid;
                        td_channel := s;
                        td_expiresAt := privilegeTs;
                        td_generatedAt := currentTs |}
        | Thrown message => Thrown ("Token generation failed: " +:+ message)
        end
  | _ => Thrown "Token generation failed: Channel name is required and must be a string"
  end.

(** ** TokenController ([controllers/tokenController.js]) *)

(** The global [parseInt], on a truthy argument; [None] is NaN. *)
Variable parseInt : js_value → option Z.

(** [TokenController.generateToken(req, res)], with [channel], [uid] and
    [expireSeconds] the fields of [req.query]. *)
Definition TokenController_generateToken (ch uid expireSeconds : js_value)
    (rnd now : Z) : reply token_data :=
  let v := validateTokenParams ch uid in
  if negb (isValid v) then
    reply_fail 400 "Invalid parameters" None (errors v)
  else
    let parsedUid := if js_truthy uid then parseInt uid else None in
    let parsedExpireSeconds :=
      if js_truthy expireSeconds then parseInt expireSeconds else None in
    match generateToken ch parsedUid parsedExpireSeconds rnd now with
    | Returned tokenData => reply_ok (Some tokenData) None
    | Thrown msg => reply_fail 500 "Internal server error" (Some msg) []
    end.

End TokenService.

(** ** TranslationSessionController ([controllers/translationSessionController.js]) *)

(** The fields of a session that [startTranslation] sends to the client. *)
Record session_view := {
  view_sessionId      : string;
  view_channel        : string;
  view_sourceLanguage : string;
  view_targetLanguage : string;
  view_streamUrl      : option string;
  view_websocketUrl   : option string;
  view_status         : session_status;
  view_createdAt      : Z;
  view_expiresAt      : Z
}.

Definition session_view_of (s : session) : session_view :=
  {| view_sessionId := sessionId s;
     view_channel := channel s;
     view_sourceLanguage := sourceLanguage s;
     view_targetLanguage := targetLanguage s;
     view_streamUrl := streamUrl s;
     view_websocketUrl := websocketUrl s;
     view_status := status s;
     view_createdAt := createdAt s;
     view_expiresAt := expiresAt s |}.

(** [startTranslation(req, res)], with the fields of [req.body].  The
    channel is a string or is missing; [options] is [None] when the body has
    none, and defaults to the empty object. *)
Definition startTranslation (cfg : Config) (ch : option string)
    (src tgt : js_value) (opts : option session_options)
    : task (reply session_view) :=
  try_catch
    (if negb (truthy ch) then
       Ret (reply_fail 400 "Channel name is required" None [])
     else if negb (js_truthy src) || negb (js_truthy tgt) then
       Ret (reply_fail 400 "Source and target languages are required" None [])
     else if negb (isValidLanguageCode src) || negb (isValidLanguageCode tgt) then
       Ret (reply_fail 400 "Invalid language codes provided" None [])
     else
       match ch, src, tgt with
       | Some c, JsString s, JsString t =>
           let* sessionData :=
             createSession cfg c s t
               (default {| audioFormat := None; sampleRate := None; channels := None |}
                  opts) in
           Ret (reply_ok (Some (session_view_of sessionData)) None)
       | _, _, _ => Ret (reply_fail 400 "Invalid language codes provided" None [])
       end)
    (λ msg, Ret (reply_fail 500 "Failed to start translation session" (Some msg) [])).

(** [stopTranslation(req, res)], with [channel] of [req.params]. *)
Definition stopTranslation (ch : option string) : task (reply string) :=
  try_catch
    (match ch with
     | Some c =>
         if String.eqb c EmptyString then
           Ret (reply_fail 400 "Channel name is required" None [])
         else
           let* success := endSession c in
           if success then
             Ret (reply_ok (Some c) (Some "Translation session stopped successfully"))
           else
             Ret (reply_fail 404 "Translation session not found or already ended" None [])
     | None => Ret (reply_fail 400 "Channel name is required" None [])
     end)
    (λ msg, Ret (reply_fail 500 "Failed to stop translation session" (Some msg) [])).

(** [getSessionStatus(req, res)] of the controller. *)
Definition controller_getSessionStatus (ch : option string)
    : task (reply session_status_info) :=
  try_catch
    (match ch with
     | Some c =>
         if String.eqb c EmptyString then
           Ret (reply_fail 400 "Channel name is required" None [])
         else
           let* info := getSessionStatus c in
           Ret (reply_ok (Some info) None)
     | None => Ret (reply_fail 400 "Channel name is required" None [])
     end)
    (λ msg, Ret (reply_fail 500 "Failed to get session status" (Some msg) [])).

(** [getAllSessions(req, res)] *)
Definition getAllSessions (cfg : Config)
    : task (reply (list session_summary * stats)) :=
  try_catch
    (let* sessions := getAllActiveSessions in
     let* st := getStats cfg in
     Ret (reply_ok (Some (sessions, st)) None))
    (λ msg, Ret (reply_fail 500 "Failed to get sessions" (Some msg) [])).

(** ** The [stop_translation] socket handler ([socket/socketHandlers.js]) *)

(** [socket.emit(...)] reaches the requesting client, [socket.to(channel)
    .emit(...)] the other clients of the room. *)
Inductive emit_target := ToSender | ToRoom (room : string).

(** An emitted event and the fields of its payload. *)
Record emitted := {
  em_target    : emit_target;
  em_event     : string;
  em_channel   : option string;
  em_status    : option string;
  em_error     : option string;
  em_message   : option string;
  em_stoppedBy : option string;
  em_timestamp : Z
}.

(** The handler of [stop_translation], for the socket [socket_id], with
    [channel] of the payload; the result is the list of the events it emits,
    in order. *)
Definition on_stop_translation (cfg : Config) (socket_id : string)
    (ch : option string) : task (list emitted) :=
  let ev target name c stat err msg by_ ts :=
    {| em_target := target; em_event := name; em_channel := c;
       em_status := stat; em_error := err; em_message := msg;
       em_stoppedBy := by_; em_timestamp := ts |} in
  match ch with
  | Some c =>
      if String.eqb c EmptyString then
        let* now := date_now in
        Ret [ev ToSender "translation_stop_error" None None
               (Some "Channel name is required") None None now]
      else
        let* t0 := date_now in
        let ack := ev ToSender "translation_stop_acknowledged" (Some c)
                     (Some "processing") None None None t0 in
        try_catch
          (let* success := stopTranslationTask cfg c in
           if success then
             let* t1 := date_now in
             let* t2 := date_now in
             let* t3 := date_now in
             Ret [ack;
                  ev (ToRoom c) "translation_stopped" (Some c) (Some "stopped")
                    None None None t1;
                  ev ToSender "translation_stopped" (Some c) (Some "stopped")
                    None None None t2;
                  ev (ToRoom c) "translation_session_stopped" (Some c) None
                    None None (Some socket_id) t3]
           else
             let* now := date_now in
             Ret [ack;
                  ev ToSender "translation_stop_error" None None
                    (Some "Translation session not found or already ended")
                    None None now])
          (λ msg,
             let* now := date_now in
             Ret [ack;
                  ev ToSender "translation_stop_error" None None
                    (Some "Failed to stop translation session") (Some msg) None now])
  | None =>
      let* now := date_now in
      Ret [ev ToSender "translation_stop_error" None None
             (Some "Channel name is required") None None now]
  end.

(** A token configuration and two stand-ins for the token builder of
    agora-access-token: one joins its arguments, the other also refuses an
    expiry that does not fit 32 bits, as the builder of the package does. *)
Definition tcfg_one : TokenConfig :=
  {| appId := "app"; appCert := "cert";
     defaultExpireSeconds := 3600; defaultUidRange := 100000 |}.

Definition join_token (app cert ch : string) (uid privilegeTs : Z)
    : outcome string :=
  Returned (app +:+ ":" +:+ cert +:+ ":" +:+ ch).

Definition join_token_32 (app cert ch : string) (uid privilegeTs : Z)
    : outcome string :=
  if (0 <=? privilegeTs) && (privilegeTs <=? 4294967295)
  then join_token app cert ch uid privilegeTs
  else Thrown "The value is out of range".

(** A configuration whose maximum is negative, as
    [parseInt(process.env.PALABRA_MAX_SESSIONS) || 100] gives for a negative
    value of the variable. *)
Definition cfg_negative : Config :=
  {| clientId := Some "client"; clientSecret := Some "secret";
     tokenUrl := "https://api.palabra.ai/v1/oauth/token";
     scope := "translation:stream"; apiUrl := "https://api.palabra.ai";
     cacheTimeout := 3600000; maxSessions := -1 |}.

(** A configuration with room for two sessions. *)
Definition cfg_two : Config :=
  {| clientId := Some "client"; clientSecret := Some "secret";
     tokenUrl := "https://api.palabra.ai/v1/oauth/token";
     scope := "translation:stream"; apiUrl := "https://api.palabra.ai";
     cacheTimeout := 3600000; maxSessions := 2 |}.

(** * Properties *)

(** ** The task semantics *)

(** [run] is [advance] repeated: a call that runs alone executes its first
    segment, and each time it awaits, the provider settles the request and
    the call resumes on the state it left. *)
Lemma run_advance {A} (t : task A) now env st :
  run t now env st =
  match advance t now st with
  | (st', Finished o) => {| final := st'; out := o; calls := [] |}
  | (st', Awaiting req k) =>
      let res := run (k (env req).1) (env req).2 env st' in
      {| final := final res; out := out res; calls := req :: calls res |}
  end.
Proof.
  revert now st. induction t as [a|e|k IH|st' k IH|k IH|req k IH]; intros now st; simpl.
  - done.
  - done.
  - apply IH.
  - apply IH.
  - apply IH.
  - done.
Qed.

(** On a clock that stands still, and with a provider that answers at
    that same time, [run_ticks] is [run]. *)
Lemma run_ticks_still {A} (t : task A) c n env st :
  run_ticks t (λ _, c) n env st = run t c (λ req, ((env req).1, c)) st.
Proof.
  revert n st. induction t as [a|e|k IH|st' k IH|k IH|req k IH]; intros n st; simpl;
    try done; try apply IH.
  by rewrite IH.
Qed.

(** A call that runs one method after another, on a clock that ticks: the
    second runs on the state the first left, with the reads of the clock
    that follow those of the first. *)
Lemma run_ticks_bind {A B} (t : task A) (f : A → task B) clk n env st :
  run_ticks (bind t f) clk n env st =
  let r := run_ticks t clk n env st in
  match out r with
  | Returned a =>
      let r2 := run_ticks (f a) clk (reads_after t clk n env st) env (final r) in
      {| final := final r2; out := out r2; calls := (calls r ++ calls r2)%list |}
  | Thrown e => {| final := final r; out := Thrown e; calls := calls r |}
  end.
Proof.
  revert n st. induction t as [a|e|k IH|st' k IH|k IH|req k IH]; intros n st; simpl;
    try apply IH.
  - by destruct (run_ticks (f a) clk n env st).
  - done.
  - rewrite IH. simpl. by destruct (out (run_ticks (k (env req).1) clk n env st)).
Qed.

(** ** The expiry sweep *)

Lemma sweep_fold_lookup now (acc m : gmap string session) k :
  map_fold (λ ch s r, if expiresAt s <=? now then delete ch r else r) acc m !! k =
  match m !! k with
  | Some s => if expiresAt s <=? now then None else acc !! k
  | None => acc !! k
  end.
Proof.
  revert k.
  apply (map_fold_weak_ind (λ r (m' : gmap string session), ∀ k,
    r !! k = match m' !! k with
             | Some s => if expiresAt s <=? now then None else acc !! k
             | None => acc !! k
             end)).
  - intros k. by rewrite lookup_empty.
  - intros i x m' r Hi IH k.
    destruct (decide (i = k)) as [->|Hne].
    + rewrite lookup_insert_eq.
      destruct (expiresAt x <=? now).
      * by rewrite lookup_delete_eq.
      * by rewrite IH, Hi.
    + rewrite lookup_insert_ne by done.
      destruct (expiresAt x <=? now).
      * by rewrite lookup_delete_ne, IH.
      * by rewrite IH.
Qed.

(** The sweep keeps exactly the sessions with [now < expiresAt]. *)
Lemma sweep_live now (m : gmap string session) : sweep now m = live now m.
Proof.
  apply map_eq; intros k. unfold sweep, live.
  rewrite sweep_fold_lookup, map_lookup_filter.
  destruct (m !! k) as [s|] eqn:Hk; simpl; [|done].
  destruct (Z.leb_spec (expiresAt s) now).
  - by rewrite option_guard_False by lia.
  - by rewrite option_guard_True by lia.
Qed.

Lemma sweep_lookup now (m : gmap string session) k :
  sweep now m !! k =
  match m !! k with
  | Some s => if expiresAt s <=? now then None else Some s
  | None => None
  end.
Proof.
  unfold sweep. rewrite sweep_fold_lookup. by destruct (m !! k).
Qed.

Lemma sweep_size now (m : gmap string session) :
  (size (sweep now m) ≤ size m)%nat.
Proof. rewrite sweep_live. apply map_size_filter. Qed.

Lemma live_size now (m : gmap string session) :
  (size (live now m) ≤ size m)%nat.
Proof. apply map_size_filter. Qed.

(** A sweep that meets an expired session frees a slot. *)
Lemma sweep_size_expired now (m : gmap string session) k s :
  m !! k = Some s → expiresAt s <= now →
  (size (sweep now m) < size m)%nat.
Proof.
  intros Hk Hexp. apply map_subset_size. split.
  - rewrite sweep_live. apply map_filter_subseteq.
  - intros Hsub. specialize (Hsub k). rewrite Hk, sweep_lookup, Hk in Hsub.
    destruct (Z.leb_spec (expiresAt s) now); [done | lia].
Qed.

(** ** Symbolic execution of a call *)

Ltac unfold_services :=
  unfold createSession, endSession, getSessionStatus, getActiveSession,
    check_session_limit, cleanupExpiredSessions, getValidToken,
    requestNewToken, stopTranslationTask, getTask, storeTask, getStats,
    getAllActiveSessions, clearCachedToken, getTokenStatus,
    await, modify, get, date_now in *.

Ltac run_step :=
  cbn [run run_ticks reads_after advance bind try_catch final out calls fst snd negb
       activeSessions activeTasks cachedToken tokenExpiry
       access_token expires_in
       set_sessions set_token set_tasks delete_session delete_task] in *.

Ltac run_cases :=
  repeat (run_step;
          match goal with
          | |- context [match ?x with _ => _ end] => destruct x eqn:?
          end);
  run_step.

(** ** Stopping a session *)

(** C3.  [endSession] removes the record of the channel whether the
    provider call resolves or rejects: with a stored session, the one
    DELETE call is made, the result is [true] exactly when it resolved, and
    the record is gone afterwards; with no stored session the result is
    [false] ("not found", nothing thrown), no provider call is made and the
    state is unchanged.  A second stop therefore finds no record: it makes
    no call and changes nothing. *)
Theorem endSession_always_removes ch now env st :
  let r := run (endSession ch) now env st in
  activeSessions (final r) !! ch = None ∧
  match activeSessions st !! ch with
  | Some s =>
      calls r = [DeleteSession (sessionId s) (accessToken s)] ∧
      out r = Returned (resolved (env (DeleteSession (sessionId s) (accessToken s))).1) ∧
      final r = delete_session ch st
  | None => out r = Returned false ∧ calls r = [] ∧ final r = st
  end ∧
  ∀ now2 env2,
    let r2 := run (endSession ch) now2 env2 (final r) in
    out r2 = Returned false ∧ calls r2 = [] ∧ final r2 = final r.
Proof.
  intros r.
  assert (Hgone : activeSessions (final r) !! ch = None).
  { subst r. unfold_services. run_cases; first [done | apply lookup_delete_eq]. }
  split; [exact Hgone|]. split.
  - subst r. unfold_services. run_cases; auto.
  - intros now2 env2 r2. subst r2. clear -Hgone. unfold_services.
    run_step. rewrite Hgone. run_step. auto.
Qed.

(** C10.  Stopping is local to its channel: [endSession ch] leaves the
    session record of every other channel as it was (the whole record, so
    its presence, status, token and [expiresAt]), whatever the provider
    answers and whether or not [ch] has a session; it does not touch the
    Agora tasks.  [stopTranslationTask ch] likewise leaves the task of every
    other channel and all the sessions as they were. *)
Theorem stop_preserves_other_channels cfg ch ch' now env st :
  ch ≠ ch' →
  let r := run (endSession ch) now env st in
  let r' := run (stopTranslationTask cfg ch) now env st in
  activeSessions (final r) !! ch' = activeSessions st !! ch' ∧
  activeTasks (final r) = activeTasks st ∧
  activeTasks (final r') !! ch' = activeTasks st !! ch' ∧
  activeSessions (final r') = activeSessions st.
Proof.
  intros Hne r r'. subst r r'. repeat split.
  all: unfold_services; run_cases; first [done | by apply lookup_delete_ne].
Qed.

Lemma stop_preserves_other_channels_witness :
  "room1" ≠ "room2" ∧
  activeSessions (final (run (endSession "room2") 2000 env_failing st_room1)) !! "room1"
  = Some session_room1.
Proof.
  split; [discriminate|].
  destruct (stop_preserves_other_channels cfg_one "room2" "room1" 2000
              env_failing st_room1) as [H _]; [discriminate|].
  rewrite H. reflexivity.
Defined.

(** ** Stopping an Agora task *)

(** C9, as the code has it.  With the service configured and a task stored
    for the channel, [stopTranslationTask] makes the one DELETE call and
    returns [true] exactly when that call resolved; any rejection, a
    "task not found" answer among them, gives [false] and nothing is thrown.
    The task record is removed in both cases.  With no stored task the
    result is [false] and no call is made; with the service not configured
    the method throws. *)
Theorem stopTranslationTask_result cfg ch now env st :
  let r := run (stopTranslationTask cfg ch) now env st in
  if isConfigured cfg then
    match activeTasks st !! ch with
    | Some t =>
        out r = Returned (resolved (env (DeleteAgoraTask (taskId t))).1) ∧
        calls r = [DeleteAgoraTask (taskId t)] ∧
        final r = delete_task ch st
    | None => out r = Returned false ∧ calls r = [] ∧ final r = st
    end
  else
    out r = Thrown "Palabra Agora service is not configured (missing ClientID/ClientSecret)"
    ∧ calls r = [] ∧ final r = st.
Proof.
  intros r. subst r. unfold_services. run_cases; auto.
Qed.

(** C9, the claim as stated fails: the provider answers the DELETE of a
    stored task with 404 "not found", and [stopTranslationTask] returns
    [false], not [true]. *)
Lemma stopTranslationTask_not_found_is_false :
  isConfigured cfg_one = true ∧
  activeTasks st_room1 !! "room2" = Some {| taskId := "t1"; taskCreatedAt := 1500 |} ∧
  (env_failing (DeleteAgoraTask "t1")).1
  = Rejected (Some 404) "Request failed with status code 404" ∧
  out (run (stopTranslationTask cfg_one "room2") 2000 env_failing st_room1)
  = Returned false ∧
  out (run (stopTranslationTask cfg_one "room2") 2000 env_failing st_room1)
  ≠ Returned true.
Proof. vm_compute. repeat split; [discriminate]. Qed.

(** ** Reading the store *)

Lemma collect_active_run entries acc now env st :
  let r := run (collect_active entries acc) now env st in
  out r = Returned (acc ++ map (λ p, summary p.1 p.2)
                             (filter (λ p, now < expiresAt p.2) entries))%list ∧
  final r = st ∧ calls r = [].
Proof.
  revert acc. induction entries as [|[ch s] rest IH]; intros acc; simpl.
  - by rewrite app_nil_r.
  - unfold date_now. run_step.
    rewrite filter_cons. simpl.
    destruct (Z.ltb_spec now (expiresAt s)).
    + rewrite decide_True by done. simpl.
      destruct (IH (acc ++ [summary ch s])%list) as (-> & -> & ->).
      by rewrite <- app_assoc.
    + rewrite decide_False by lia. apply IH.
Qed.



(** ** The token cache *)

Lemma cached_valid_Some now st tok :
  cached_valid now st = Some tok ↔
  cachedToken st = Some tok ∧ tok ≠ EmptyString ∧
  ∃ expiry, tokenExpiry st = Some expiry ∧ expiry ≠ 0 ∧ now < expiry.
Proof.
  unfold cached_valid.
  destruct (cachedToken st) as [t|], (tokenExpiry st) as [e|];
    try (split; [done | intros (? & ? & ? & ? & ?); congruence]).
  destruct (String.eqb_spec t EmptyString), (Z.eqb_spec e 0), (Z.ltb_spec now e); simpl;
    split; try done; try (intros (? & ? & ? & ? & ? & ?); simplify_eq; lia).
  - intros [= ->]. eauto 6.
  - by intros [? _].
Qed.

(** The test of line 36 fails without a read of the clock when one of the
    two fields is not set. *)
Lemma cached_valid_untested now st :
  truthy (cachedToken st) && truthyZ (tokenExpiry st) = false →
  cached_valid now st = None.
Proof.
  unfold cached_valid, truthy, truthyZ.
  destruct (cachedToken st) as [tok|], (tokenExpiry st) as [e|]; simpl; try done.
  destruct (String.eqb tok EmptyString), (e =? 0); simpl; done.
Qed.

(** C7, as the code has it.  The cached token is returned, with no network
    call and no change of the cache, exactly when [cachedToken] and
    [tokenExpiry] are set and [now < tokenExpiry]; the five-minute margin is
    not subtracted again in this test, it is part of the stored
    [tokenExpiry].  Otherwise, with the credentials configured, one token
    request is made: when it resolves with an [access_token], the token is
    cached with [tokenExpiry = now' + expires_in * 1000 - 300000] ([now'] the
    clock when the response arrives, in milliseconds) and returned, unless
    that [tokenExpiry] is outside the range of [Date] or is NaN, for want of
    a numeric [expires_in]: the token is cached all the same, and the call
    throws, as the rendering of the expiry for the logger does.  When the
    request rejects or carries no [access_token],
    the cache is left as it was and an error carrying the cause is thrown.
    With the credentials not configured no request is made, the cache is
    left as it was and an error is thrown. *)
Theorem getValidToken_cache cfg now env st :
  let r := run (getValidToken cfg) now env st in
  let req := PostToken (clientId cfg) (clientSecret cfg) (scope cfg) in
  match cached_valid now st with
  | Some tok => out r = Returned tok ∧ calls r = [] ∧ final r = st
  | None =>
      if isAvailable cfg then
        calls r = [req] ∧
        match accepted_token (env req).1 with
        | Some (tok, Some secs) =>
            let expiry := (env req).2 + secs * 1000 - 5 * 60 * 1000 in
            final r = set_token (Some tok) (Some expiry) st ∧
            out r = if date_renders expiry then Returned tok
                    else Thrown "OAuth token request failed: Invalid time value"
        | Some (tok, None) =>
            final r = set_token (Some tok) None st ∧
            out r = Thrown "OAuth token request failed: Invalid time value"
        | None =>
            out r = Thrown ("OAuth token request failed: " +:+ token_error (env req).1) ∧
            final r = st
        end
      else
        calls r = [] ∧
        out r = Thrown "OAuth token request failed: OAuth service is not configured" ∧
        final r = st
  end.
Proof.
  intros r req. subst r req. unfold_services. run_step.
  destruct (truthy (cachedToken st) && truthyZ (tokenExpiry st)) eqn:Htest; run_step.
  2: rewrite (cached_valid_untested now st Htest).
  1: destruct (cached_valid now st) as [tok|] eqn:Hc; run_step; [done|].
  all: destruct (isAvailable cfg); run_step; [|done].
  all: destruct ((env _).1) as [[[tok|] secs| | |[tok|]]|]; simpl; run_step; try done.
  all: destruct (String.eqb tok EmptyString); run_step; try done.
  all: destruct (date_renders _); run_step; done.
Qed.

(** C7, the claim as stated fails: a token is cached with expiry 1000000,
    and at 900000 the test of the claim, [now < expiresAt - safetyMargin],
    is false, so the claim has a token request made; [getValidToken] makes
    none and returns the cached token. *)
Lemma getValidToken_inside_margin :
  cachedToken st_room1 = Some "tok" ∧ tokenExpiry st_room1 = Some 1000000 ∧
  spec_token_fresh 900000 st_room1 = false ∧
  calls (run (getValidToken cfg_one) 900000 env_ok st_room1) = [] ∧
  out (run (getValidToken cfg_one) 900000 env_ok st_room1) = Returned "tok".
Proof. vm_compute. repeat split. Qed.

(** ** Token requests of calls in flight *)

(** A call of [getValidToken] that misses the cache sends its token request
    in the segment that starts it and awaits the response; [k] is the rest
    of the method. *)
Lemma getValidToken_miss cfg :
  isAvailable cfg = true →
  ∃ k,
    (∀ now st, cached_valid now st = None →
       advance (getValidToken cfg) now st
       = (st, Awaiting (PostToken (clientId cfg) (clientSecret cfg) (scope cfg)) k)) ∧
    (∀ r now' st',
       advance (k r) now' st' =
       match accepted_token r with
       | Some (tok, Some secs) =>
           let expiry := now' + secs * 1000 - 5 * 60 * 1000 in
           (set_token (Some tok) (Some expiry) st',
            Finished (if date_renders expiry then Returned tok
                      else Thrown "OAuth token request failed: Invalid time value"))
       | Some (tok, None) =>
           (set_token (Some tok) None st',
            Finished (Thrown "OAuth token request failed: Invalid time value"))
       | None =>
           (st', Finished (Thrown ("OAuth token request failed: " +:+ token_error r)))
       end).
Proof.
  intros Hav. eexists. split.
  - intros now st Hmiss. unfold_services. rewrite Hav. run_step.
    destruct (truthy (cachedToken st) && truthyZ (tokenExpiry st)); run_step;
      rewrite ?Hmiss; run_step; reflexivity.
  - intros r now' st'. run_step.
    destruct r as [[[tok|] secs| | |[tok|]]|]; simpl; run_step; try done.
    all: destruct (String.eqb tok EmptyString); run_step; try done.
    destruct (date_renders _); run_step; done.
Qed.

Lemma exec_invoke_misses {A} (t : task A) req k nows (sys : system A) :
  (∀ now, now ∈ nows → advance t now (shared sys) = (shared sys, Awaiting req k)) →
  exec sys (map (Invoke t) nows)
  = {| shared := shared sys;
       pool := pool sys ++ replicate (length nows) (Awaiting req k);
       sent := sent sys ++ replicate (length nows) req |}.
Proof.
  revert sys. induction nows as [|now nows IH]; intros sys Hadv; simpl.
  - destruct sys. by rewrite !app_nil_r.
  - rewrite (Hadv now) by apply list_elem_of_here. rewrite IH.
    + simpl. by rewrite <- !app_assoc.
    + simpl. intros now' Hin. apply Hadv. by apply list_elem_of_further.
Qed.

(** C1, as the code has it.  The service keeps no record of a refresh in
    flight.  With the credentials configured, each of N calls of
    [getValidToken] invoked while the cache holds no valid token, before
    any response has arrived, sends a token request of its own: N requests
    go out, the cache is unchanged, and the N calls await.  Each waiting
    call settles on the response to its own request: it caches the token of
    that response and returns it (or throws after caching it, when the
    expiry it computed is outside the range of [Date] or is NaN), or it
    throws the error of that response and leaves the cache as it finds
    it. *)
Theorem getValidToken_one_request_per_call cfg st nows :
  isAvailable cfg = true →
  (∀ now, now ∈ nows → cached_valid now st = None) →
  let req := PostToken (clientId cfg) (clientSecret cfg) (scope cfg) in
  let sys := exec (idle string st) (map (Invoke (getValidToken cfg)) nows) in
  sent sys = replicate (length nows) req ∧
  shared sys = st ∧
  ∃ k,
    pool sys = replicate (length nows) (Awaiting req k) ∧
    ∀ r now' st',
      advance (k r) now' st' =
      match accepted_token r with
      | Some (tok, Some secs) =>
          let expiry := now' + secs * 1000 - 5 * 60 * 1000 in
          (set_token (Some tok) (Some expiry) st',
           Finished (if date_renders expiry then Returned tok
                     else Thrown "OAuth token request failed: Invalid time value"))
      | Some (tok, None) =>
          (set_token (Some tok) None st',
           Finished (Thrown "OAuth token request failed: Invalid time value"))
      | None =>
          (st', Finished (Thrown ("OAuth token request failed: " +:+ token_error r)))
      end.
Proof.
  intros Hav Hmiss req sys.
  destruct (getValidToken_miss cfg Hav) as (k & Hstart & Hresume).
  assert (Hsys : sys = {| shared := st;
                          pool := replicate (length nows) (Awaiting req k);
                          sent := replicate (length nows) req |}).
  { subst sys. rewrite (exec_invoke_misses _ req k); [done|].
    intros now Hin. apply Hstart, Hmiss, Hin. }
  rewrite Hsys. simpl. eauto.
Qed.

Lemma getValidToken_one_request_per_call_witness :
  isAvailable cfg_one = true ∧
  sent (exec (idle string initial_state)
          (map (Invoke (getValidToken cfg_one)) [1000; 1000; 1002]))
  = replicate 3 (PostToken (Some "client") (Some "secret") "translation:stream").
Proof.
  split; [reflexivity|].
  apply (getValidToken_one_request_per_call cfg_one initial_state [1000; 1000; 1002]).
  - reflexivity.
  - intros now _. reflexivity.
Defined.

(** C1, the claim as stated fails: two calls invoked on the empty cache
    send two token requests, not one, and each receives the token of its own
    response. *)
Lemma two_calls_two_token_requests :
  let req := PostToken (Some "client") (Some "secret") "translation:stream" in
  let calls2 := [Invoke (getValidToken cfg_one) 1000; Invoke (getValidToken cfg_one) 1000] in
  cachedToken initial_state = None ∧
  sent (exec (idle string initial_state) calls2) = [req; req] ∧
  length (sent (exec (idle string initial_state) calls2)) ≠ 1%nat ∧
  let sys := exec (idle string initial_state)
               (calls2 ++ [Deliver 0 (Resolved (TokenData (Some "tokA") 3600)) 1100;
                           Deliver 1 (Resolved (TokenData (Some "tokB") 3600)) 1101]) in
  pool sys = [Finished (Returned "tokA"); Finished (Returned "tokB")] ∧
  sent sys = [req; req].
Proof. vm_compute. repeat split. discriminate. Qed.

(** ** Starting a session *)

Lemma live_lookup now (m : gmap string session) k :
  live now m !! k =
  match m !! k with
  | Some s => if expiresAt s <=? now then None else Some s
  | None => None
  end.
Proof. rewrite <- sweep_live. apply sweep_lookup. Qed.

Lemma sweep_subseteq now (m1 m : gmap string session) :
  m1 ⊆ m → sweep now m1 ⊆ m.
Proof.
  intros Hsub. etrans; [|exact Hsub]. rewrite sweep_live. apply map_filter_subseteq.
Qed.

Lemma delete_subseteq_trans k (m1 m : gmap string session) :
  m1 ⊆ m → delete k m1 ⊆ m.
Proof. intros Hsub. etrans; [apply delete_subseteq | exact Hsub]. Qed.

Lemma sweep_lookup_None now (m : gmap string session) k :
  m !! k = None → sweep now m !! k = None.
Proof. intros H. by rewrite sweep_lookup, H. Qed.

Ltac solve_subseteq :=
  repeat first [apply sweep_subseteq | apply delete_subseteq_trans]; reflexivity.

Ltac solve_lookup_None :=
  repeat apply sweep_lookup_None; first [assumption | apply lookup_delete_eq].

Ltac solve_capacity :=
  repeat match goal with
         | H : (_ <=? _) = false |- _ => apply Z.leb_gt in H
         | H : (_ <=? _) = true |- _ => apply Z.leb_le in H
         end; lia.

Ltac solve_no_live :=
  rewrite live_lookup;
  repeat match goal with
         | H : _ !! _ = _ |- _ => rewrite H
         | H : (_ <=? _) = _ |- _ => rewrite H
         end; reflexivity.

(** The ways a call of [createSession] that runs alone can end.  In the
    last, the session was stored; the call then returns it, or throws when
    its [expiresAt] cannot be rendered. *)
Lemma createSession_cases cfg ch src tgt opts now env st :
  let r := run (createSession cfg ch src tgt opts) now env st in
  let m := activeSessions st in
  let m' := activeSessions (final r) in
  (isAvailable cfg = false ∧ final r = st ∧ calls r = [] ∧
   out r = Thrown "Session creation failed: Palabra session service is not configured")
  ∨ (isAvailable cfg = true ∧
     ∃ s, m !! ch = Some s ∧ now < expiresAt s ∧
          out r = Returned s ∧ final r = st ∧ calls r = [])
  ∨ (isAvailable cfg = true ∧ live now m !! ch = None ∧
     (∃ msg, out r = Thrown ("Session creation failed: " +:+ msg)) ∧
     m' ⊆ m ∧ m' !! ch = None)
  ∨ (isAvailable cfg = true ∧ live now m !! ch = None ∧
     ∃ sd mid,
       m' = <[ch := sd]> mid ∧
       mid ⊆ m ∧ mid !! ch = None ∧ Z.of_nat (size mid) < maxSessions cfg ∧
       channel sd = ch ∧ status sd = active ∧ sessionId sd ≠ EmptyString ∧
       (out r = Returned sd ∨
        out r = Thrown "Session creation failed: Invalid time value")).
Proof.
  intros r m m'. subst r m m'. unfold_services.
  destruct (isAvailable cfg) eqn:Hav; run_step; [|left; done].
  right. run_cases.
  all: try (left; split; [done|]; eexists; split; [done|]; split; [lia|done]).
  all: right.
  all: try (left; split; [done|]; split; [solve_no_live|]; split; [eauto|];
            split; [solve_subseteq | solve_lookup_None]).
  all: right; split; [done|]; split; [solve_no_live|].
  all: eexists _, _; split; [reflexivity|].
  all: split; [solve_subseteq|]; split; [solve_lookup_None|]; split; [solve_capacity|].
  all: cbn [channel status sessionId].
  all: split; [done|]; split; [done|]; split; [by apply String.eqb_neq|].
  all: first [by left | by right].
Qed.

(** ** The store between calls *)

Lemma collect_active_bind {B} entries acc (f : list session_summary → task B)
    now env st :
  run (bind (collect_active entries acc) f) now env st
  = run (f (acc ++ map (λ p, summary p.1 p.2)
                     (filter (λ p, now < expiresAt p.2) entries))%list) now env st.
Proof.
  revert acc. induction entries as [|[ch s] rest IH]; intros acc; simpl.
  - by rewrite app_nil_r.
  - unfold date_now. run_step. rewrite filter_cons. simpl.
    destruct (Z.ltb_spec now (expiresAt s)).
    + rewrite decide_True by done. simpl. rewrite IH. by rewrite <- app_assoc.
    + rewrite decide_False by lia. apply IH.
Qed.

(** Only [createSession] adds to the store. *)
Lemma after_sessions_subseteq cfg c now env st :
  (∀ ch src tgt opts, c ≠ CallCreateSession ch src tgt opts) →
  activeSessions (after cfg c now env st) ⊆ activeSessions st.
Proof.
  intros Hc. destruct c; simpl; try (by edestruct Hc).
  all: try (unfold_services; run_cases; solve_subseteq).
  - destruct (collect_active_run (map_to_list (activeSessions st)) [] now env st)
      as (_ & Hfin & _).
    unfold getAllActiveSessions, get. run_step. simpl in Hfin. by rewrite Hfin.
  - unfold getStats, getAllActiveSessions, get. run_step.
    rewrite collect_active_bind. run_step. done.
Qed.

Lemma store_ok_subseteq cfg (m m' : gmap string session) :
  store_ok cfg m → m' ⊆ m → store_ok cfg m'.
Proof. intros Hrec Hsub k s Hk. apply Hrec. by eapply lookup_weaken. Qed.

Lemma reachable_store_ok cfg st :
  reachable cfg st → store_ok cfg (activeSessions st).
Proof.
  intros Hreach. induction Hreach as [|c now env st Hreach IH].
  - intros k s Hk. cbn [initial_state activeSessions] in Hk.
    by rewrite lookup_empty in Hk.
  - destruct c as [ch src tgt opts| | | | | | | | | | |].
    2-12: (eapply store_ok_subseteq; [exact IH|];
           apply after_sessions_subseteq; intros; discriminate).
    simpl.
    destruct (createSession_cases cfg ch src tgt opts now env st)
      as [(_ & -> & _)|[(_ & s & _ & _ & _ & -> & _)|
          [(_ & _ & _ & Hsub & _)|(Hav & _ & sd & mid & -> & Hsub & _ & _ & Hsd)]]];
      try done.
    + by eapply store_ok_subseteq.
    + pose proof (store_ok_subseteq _ _ _ IH Hsub) as Hrec.
      intros k s. destruct (decide (ch = k)) as [->|Hne].
      * rewrite lookup_insert_eq. intros [= <-]. by destruct Hsd as (? & ? & ? & _).
      * rewrite lookup_insert_ne by done. apply Hrec.
Qed.

(** Calls that do not overlap keep the store within [maxSessions]. *)
Lemma reachable_size cfg st :
  0 <= maxSessions cfg → reachable cfg st →
  Z.of_nat (size (activeSessions st)) <= maxSessions cfg.
Proof.
  intros Hmax Hreach. induction Hreach as [|c now env st Hreach IH].
  - cbn [initial_state activeSessions]. by rewrite map_size_empty.
  - destruct c as [ch src tgt opts| | | | | | | | | | |].
    2-12: (etrans; [|exact IH]; apply inj_le, map_subseteq_size,
           after_sessions_subseteq; intros; discriminate).
    simpl.
    destruct (createSession_cases cfg ch src tgt opts now env st)
      as [(_ & -> & _)|[(_ & s & _ & _ & _ & -> & _)|
          [(_ & _ & _ & Hsub & _)|(_ & _ & sd & mid & -> & _ & Hnone & Hcap & _)]]];
      try done.
    + apply map_subseteq_size in Hsub. lia.
    + rewrite map_size_insert_None by done. lia.
Qed.

(** C2.  Start is idempotent over an active session: in every state
    reached by calls that follow one another, when the store holds a session
    for the channel that has not expired, [createSession] returns that
    session, so the same [sessionId] as the start that created it, makes no
    provider call at all, and leaves the state unchanged. *)
Theorem createSession_idempotent cfg ch src tgt opts now env st s :
  reachable cfg st →
  activeSessions st !! ch = Some s →
  now < expiresAt s →
  let r := run (createSession cfg ch src tgt opts) now env st in
  out r = Returned s ∧ calls r = [] ∧ final r = st.
Proof.
  intros Hreach Hs Hlt r.
  destruct (reachable_store_ok cfg st Hreach ch s Hs) as (Hav & _).
  subst r. unfold_services. rewrite Hav. run_step. rewrite Hs. run_step.
  destruct (Z.leb_spec (expiresAt s) now); [lia|]. run_step. done.
Qed.

Lemma createSession_idempotent_witness :
  reachable cfg_one st_two_starts ∧
  activeSessions st_two_starts !! "room1" = Some session_room1 ∧
  2000 < expiresAt session_room1 ∧
  out (run (createSession cfg_one "room1" "en" "fr" no_options) 2000 env_failing
         st_two_starts) = Returned session_room1 ∧
  calls (run (createSession cfg_one "room1" "en" "fr" no_options) 2000 env_failing
           st_two_starts) = [].
Proof.
  assert (Hreach : reachable cfg_one st_two_starts)
    by apply reachable_after, reachable_initial.
  assert (Hs : activeSessions st_two_starts !! "room1" = Some session_room1)
    by (vm_compute; reflexivity).
  assert (Hlt : 2000 < expiresAt session_room1) by (vm_compute; reflexivity).
  destruct (createSession_idempotent cfg_one "room1" "en" "fr" no_options 2000
              env_failing st_two_starts session_room1 Hreach Hs Hlt) as (Ho & Hc & _).
  repeat split; assumption.
Defined.

Ltac invert_calls :=
  repeat match goal with
         | H : _ ∈ [] |- _ => by apply elem_of_nil in H
         | H : _ ∈ _ :: _ |- _ => apply elem_of_cons in H as [H|H]
         end.

Lemma getSessionStatus_absent ch now env st :
  activeSessions st !! ch = None →
  ∃ info, out (run (getSessionStatus ch) now env st) = Returned info ∧
          hasSession info = false ∧ info_status info = inactive.
Proof.
  intros Hnone. unfold_services. run_step. rewrite Hnone. run_step. eauto.
Qed.

(** C4.  When [createSession] makes the provider start call and that call
    fails (it rejects, or its body carries no session id), the call of
    [createSession] throws an error that carries the cause, and the store
    holds no session for the channel: a status query that follows reports
    [hasSession: false]. *)
Theorem createSession_provider_failure cfg ch src tgt opts now env st bearer body :
  let r := run (createSession cfg ch src tgt opts) now env st in
  PostSession bearer body ∈ calls r →
  session_ok (env (PostSession bearer body)).1 = false →
  out r = Thrown ("Session creation failed: "
                  +:+ start_error (env (PostSession bearer body)).1) ∧
  activeSessions (final r) !! ch = None ∧
  ∀ now' env',
    ∃ info, out (run (getSessionStatus ch) now' env' (final r)) = Returned info ∧
            hasSession info = false.
Proof.
  intros r Hin Hfail.
  assert (out r = Thrown ("Session creation failed: "
             +:+ start_error (env (PostSession bearer body)).1) ∧
          activeSessions (final r) !! ch = None) as [Hout Hnone].
  { subst r. unfold_services. revert Hin Hfail. run_cases.
    all: intros Hin Hfail; invert_calls; try discriminate.
    all: injection Hin as -> ->.
    all: repeat match goal with
                | H : fst _ = _ |- _ => rewrite H in *
                end; simpl in Hfail |- *.
    all: repeat match goal with
                | H : String.eqb _ _ = _ |- _ => rewrite H in *
                end; try discriminate.
    all: split; [reflexivity | solve_lookup_None]. }
  split; [exact Hout|]. split; [exact Hnone|].
  intros now' env'.
  destruct (getSessionStatus_absent ch now' env' (final r) Hnone) as (info & ? & ? & _).
  eauto.
Qed.

Lemma createSession_provider_failure_witness :
  let body := {| channel_name := "room1"; source_language := "en";
                 target_language := "es"; audio_format := "pcm";
                 sample_rate := 16000; req_channels := 1 |} in
  let r := run (createSession cfg_one "room1" "en" "es" no_options) 1000 env_failing
             initial_state in
  PostSession "tok" body ∈ calls r ∧
  session_ok (env_failing (PostSession "tok" body)).1 = false ∧
  out r = Thrown "Session creation failed: Request failed with status code 500" ∧
  activeSessions (final r) !! "room1" = None.
Proof.
  intros body r.
  assert (Hin : PostSession "tok" body ∈ calls r)
    by (vm_compute; apply list_elem_of_further, list_elem_of_here).
  assert (Hfail : session_ok (env_failing (PostSession "tok" body)).1 = false)
    by reflexivity.
  destruct (createSession_provider_failure cfg_one "room1" "en" "es" no_options 1000
              env_failing initial_state "tok" body Hin Hfail) as (Ho & Hn & _).
  repeat split; assumption.
Defined.

(** ** Capacity *)

Lemma sweep_delete_expired now (m : gmap string session) ch s :
  m !! ch = Some s → expiresAt s <= now →
  sweep now (delete ch m) = live now m.
Proof.
  intros Hch Hexp. apply map_eq; intros k.
  rewrite sweep_lookup, live_lookup.
  destruct (decide (ch = k)) as [<-|Hne].
  - rewrite lookup_delete_eq, Hch.
    destruct (Z.leb_spec (expiresAt s) now); [done | lia].
  - by rewrite lookup_delete_ne.
Qed.

(** The capacity gate of [createSession], for a channel without a session
    that is still valid: when the sessions that have not expired fill the
    store, the start is rejected, the expired ones have been swept and no
    call has been made; otherwise the start goes on to the provider. *)
Lemma createSession_capacity_gate cfg ch src tgt opts now env st :
  isAvailable cfg = true →
  live now (activeSessions st) !! ch = None →
  let r := run (createSession cfg ch src tgt opts) now env st in
  if maxSessions cfg <=? Z.of_nat (size (live now (activeSessions st)))
  then out r = Thrown "Session creation failed: Maximum number of active sessions reached"
       ∧ calls r = []
       ∧ activeSessions (final r) = live now (activeSessions st)
  else calls r ≠ [].
Proof.
  intros Hav Hno r. subst r. rewrite live_lookup in Hno.
  pose proof (sweep_live now (activeSessions st)) as Hsweep.
  pose proof (live_size now (activeSessions st)) as Hsize.
  unfold_services. rewrite Hav. run_step.
  destruct (activeSessions st !! ch) as [s|] eqn:Hch; run_step.
  - destruct (Z.leb_spec (expiresAt s) now) as [Hexp|]; [|done]. run_step.
    pose proof (sweep_delete_expired now _ ch s Hch Hexp) as Hsweep'.
    pose proof (sweep_size now (delete ch (activeSessions st))) as Hsize'.
    rewrite Hsweep' in Hsize'.
    destruct (Z.leb_spec (maxSessions cfg)
                (Z.of_nat (size (live now (activeSessions st))))) as [Hfull|Hroom].
    + run_cases; rewrite ?Hsweep' in *; first [done | solve_capacity].
    + run_cases; rewrite ?Hsweep' in *; first [discriminate | solve_capacity].
  - destruct (Z.leb_spec (maxSessions cfg)
                (Z.of_nat (size (live now (activeSessions st))))) as [Hfull|Hroom].
    + run_cases; rewrite ?Hsweep in *; first [done | solve_capacity].
    + run_cases; rewrite ?Hsweep in *; first [discriminate | solve_capacity].
Qed.

(** C6, the code at the failing input.  With a maximum of one session, a
    start for [room2] is invoked while the start for [room1] awaits the
    provider: both pass the capacity check of lines 168-174 on the empty
    store, both store their session, and the store holds two sessions that
    have not expired, one more than the maximum. *)
Theorem overlapping_starts_exceed_capacity :
  let sys := exec (idle session initial_state) overlapping_starts in
  maxSessions cfg_one = 1 ∧
  size (activeSessions (shared sys)) = 2%nat ∧
  size (live 1300 (activeSessions (shared sys))) = 2%nat ∧
  ¬ (Z.of_nat (size (live 1300 (activeSessions (shared sys)))) <= maxSessions cfg_one) ∧
  (sessionId <$> activeSessions (shared sys) !! "room1") = Some "sid-room1" ∧
  (sessionId <$> activeSessions (shared sys) !! "room2") = Some "sid-room2".
Proof. vm_compute. repeat split. intros H. apply H. reflexivity. Qed.

(** ** The expiry window *)

(** C8, the code at the failing input.  A start on the empty store, with a
    lifetime of 3600000 ms, during which the clock ticks between the two
    reads of lines 220 and 221.  The clock is read at line 47 (1198), at
    line 220 (1199) and at line 221 (1200): the session is stored and
    returned with [createdAt = 1199] and [expiresAt = 3601200], a millisecond
    more than [createdAt + cacheTimeout].  A read of the channel made with no
    time passed returns that session, and its status is [active]. *)
Theorem createSession_reads_clock_twice :
  let start := createSession cfg_one "room1" "en" "es" no_options in
  let r := run_ticks start clock_settling 0 env_ok initial_state in
  let m := reads_after start clock_settling 0 env_ok initial_state in
  ∃ sd, out r = Returned sd ∧
    m = 3%nat ∧ clock_settling 1 = 1199 ∧ clock_settling 2 = 1200 ∧
    createdAt sd = 1199 ∧ expiresAt sd = 3601200 ∧
    cacheTimeout cfg_one = 3600000 ∧
    expiresAt sd ≠ createdAt sd + cacheTimeout cfg_one ∧
    out (run_ticks (getActiveSession "room1") clock_settling m env_ok (final r))
    = Returned (Some sd) ∧
    status sd = active.
Proof. vm_compute. eexists. repeat split. discriminate. Qed.

(** * Further properties of the services *)

(** ** The token cache, continued *)

(** X1.  [clearCachedToken] forces a refresh: whatever the cache held, the
    call of [getValidToken] that follows it on a configured service sends
    one token request; clearing touches nothing but the token cache. *)
Theorem clearCachedToken_forces_refresh cfg now0 env0 now env st :
  isAvailable cfg = true →
  let st1 := final (run clearCachedToken now0 env0 st) in
  let r := run (getValidToken cfg) now env st1 in
  calls r = [PostToken (clientId cfg) (clientSecret cfg) (scope cfg)] ∧
  cachedToken st1 = None ∧ tokenExpiry st1 = None ∧
  activeSessions st1 = activeSessions st ∧ activeTasks st1 = activeTasks st.
Proof.
  intros Hav st1 r. subst st1 r. unfold_services. rewrite Hav.
  run_cases; done.
Qed.

Lemma clearCachedToken_forces_refresh_witness :
  isAvailable cfg_one = true ∧
  cached_valid 2000 st_room1 = Some "tok" ∧
  calls (run (getValidToken cfg_one) 2000 env_ok
           (final (run clearCachedToken 1900 env_ok st_room1)))
  = [PostToken (Some "client") (Some "secret") "translation:stream"].
Proof.
  split; [reflexivity|]. split; [reflexivity|].
  apply (clearCachedToken_forces_refresh cfg_one 1900 env_ok 2000 env_ok st_room1).
  reflexivity.
Defined.

(** X2.  [getTokenStatus] changes nothing and sends nothing.  It returns a
    status unless [tokenExpiry] is set, is not zero and is outside the range
    of [Date]: then it throws [Invalid time value], as the rendering of line
    114 does.  A status that is returned agrees with [getValidToken]: it
    reports a token that has not expired exactly when [getValidToken] would
    answer from the cache at that time. *)
Theorem getTokenStatus_agrees_with_cache cfg now env st :
  let r := run (getTokenStatus cfg) now env st in
  final r = st ∧ calls r = [] ∧
  if match tokenExpiry st with
     | Some e => (e =? 0) || date_renders e
     | None => true
     end
  then ∃ ts, out r = Returned ts ∧
         (ts_hasToken ts && negb (ts_isExpired ts) = true
          ↔ is_Some (cached_valid now st)) ∧
         ts_isConfigured ts = isAvailable cfg
  else out r = Thrown "Invalid time value".
Proof.
  intros r. subst r. unfold_services. run_step.
  unfold cached_valid, truthy, truthyZ.
  destruct (tokenExpiry st) as [e|] eqn:He; run_step.
  - destruct (Z.eqb_spec e 0) as [Hz|Hz]; cbn [negb orb]; run_step.
    + split; [done|]. split; [done|]. eexists. split; [reflexivity|]. split; [|done].
      cbn [ts_hasToken ts_isExpired]. rewrite andb_false_r.
      destruct (cachedToken st); [rewrite andb_false_r|]; simpl;
        (split; [done | by intros [? ?]]).
    + destruct (date_renders e); run_step; [|done].
      split; [done|]. split; [done|]. eexists. split; [reflexivity|]. split; [|done].
      cbn [ts_hasToken ts_isExpired].
      destruct (cachedToken st) as [tok|]; simpl; [|split; [done | by intros [? ?]]].
      destruct (String.eqb tok EmptyString), (Z.leb_spec e now), (Z.ltb_spec now e);
        simpl; try lia; split; try done; try (by intros [? ?]); eauto.
  - split; [done|]. split; [done|]. eexists. split; [reflexivity|]. split; [|done].
    cbn [ts_hasToken ts_isExpired]. rewrite andb_false_r.
    destruct (cachedToken st); (split; [done | by intros [? ?]]).
Qed.

(** What a lone call of [getValidToken] does on a cache miss, for the
    lemmas below. *)
Lemma getValidToken_refresh cfg now env st tok secs :
  isAvailable cfg = true →
  cached_valid now st = None →
  accepted_token (env (PostToken (clientId cfg) (clientSecret cfg) (scope cfg))).1
  = Some (tok, Some secs) →
  let req := PostToken (clientId cfg) (clientSecret cfg) (scope cfg) in
  let r := run (getValidToken cfg) now env st in
  tok ≠ EmptyString ∧
  final r = set_token (Some tok) (Some ((env req).2 + secs * 1000 - 5 * 60 * 1000)) st.
Proof.
  intros Hav Hmiss Hacc req r. subst req r. unfold_services. rewrite Hav.
  run_step.
  destruct (truthy (cachedToken st) && truthyZ (tokenExpiry st)); run_step;
    rewrite ?Hmiss; run_step.
  all: destruct ((env _).1) as [[[t|] s| | |[t|]]|]; simpl in Hacc; try discriminate.
  all: run_step.
  all: destruct (String.eqb_spec t EmptyString); try discriminate.
  all: injection Hacc as -> ->; run_step.
  all: destruct (date_renders _); run_step; done.
Qed.

(** X3.  A refreshed token is reused: after a call of [getValidToken] that
    obtained a token with lifetime [expires_in], every call made at a time
    [now2] that is not negative and is below
    [arrival + expires_in * 1000 - 300000] returns that token without a
    request and without touching the cache. *)
Theorem refreshed_token_is_reused cfg now env st tok secs now2 env2 :
  isAvailable cfg = true →
  cached_valid now st = None →
  let req := PostToken (clientId cfg) (clientSecret cfg) (scope cfg) in
  accepted_token (env req).1 = Some (tok, Some secs) →
  0 <= now2 < (env req).2 + secs * 1000 - 5 * 60 * 1000 →
  let st1 := final (run (getValidToken cfg) now env st) in
  let r2 := run (getValidToken cfg) now2 env2 st1 in
  out r2 = Returned tok ∧ calls r2 = [] ∧ final r2 = st1.
Proof.
  intros Hav Hmiss req Hacc Hnow st1 r2. subst req.
  destruct (getValidToken_refresh cfg now env st tok secs Hav Hmiss Hacc)
    as (Htok & Hfin).
  subst st1 r2. rewrite Hfin.
  set (expiry := (env (PostToken (clientId cfg) (clientSecret cfg) (scope cfg))).2
                 + secs * 1000 - 5 * 60 * 1000) in *.
  assert (Hhit : cached_valid now2 (set_token (Some tok) (Some expiry) st) = Some tok).
  { unfold cached_valid. cbn [cachedToken tokenExpiry set_token].
    destruct (String.eqb_spec tok EmptyString); [done|].
    destruct (Z.eqb_spec expiry 0); [lia|].
    destruct (Z.ltb_spec now2 expiry); [done | lia]. }
  unfold getValidToken, get, date_now. run_step.
  destruct (truthy _ && truthyZ _) eqn:Htest; run_step.
  - rewrite Hhit. run_step. done.
  - by rewrite (cached_valid_untested now2 (set_token (Some tok) (Some expiry) st) Htest)
      in Hhit.
Qed.

Lemma refreshed_token_is_reused_witness :
  let st1 := final (run (getValidToken cfg_one) 1000 env_ok initial_state) in
  isAvailable cfg_one = true ∧
  tokenExpiry st1 = Some 3301100 ∧
  out (run (getValidToken cfg_one) 3301099 env_failing st1) = Returned "tok" ∧
  calls (run (getValidToken cfg_one) 3301099 env_failing st1) = [].
Proof.
  intros st1.
  destruct (refreshed_token_is_reused cfg_one 1000 env_ok initial_state "tok" 3600
              3301099 env_failing) as (Ho & Hc & _);
    [reflexivity | reflexivity | reflexivity
    | vm_compute; split; [discriminate | reflexivity] |].
  repeat split; assumption.
Defined.

(** X4.  A token whose lifetime does not exceed the five-minute margin is
    never reused: after a call of [getValidToken] that obtained a token
    with [expires_in * 1000 <= 300000], every call made at or after the
    arrival of that token sends a token request again. *)
Theorem short_lived_token_is_never_reused cfg now env st tok secs now2 env2 :
  isAvailable cfg = true →
  cached_valid now st = None →
  let req := PostToken (clientId cfg) (clientSecret cfg) (scope cfg) in
  accepted_token (env req).1 = Some (tok, Some secs) →
  secs * 1000 <= 5 * 60 * 1000 →
  (env req).2 <= now2 →
  let st1 := final (run (getValidToken cfg) now env st) in
  cached_valid now2 st1 = None ∧
  calls (run (getValidToken cfg) now2 env2 st1) = [req].
Proof.
  intros Hav Hmiss req Hacc Hshort Hlater st1. subst req.
  destruct (getValidToken_refresh cfg now env st tok secs Hav Hmiss Hacc)
    as (Htok & Hfin).
  assert (Hmiss2 : cached_valid now2 st1 = None).
  { subst st1. rewrite Hfin. unfold cached_valid. cbn [cachedToken tokenExpiry set_token].
    destruct (Z.ltb_spec now2 ((env (PostToken (clientId cfg) (clientSecret cfg) (scope cfg))).2 + secs * 1000 - 5 * 60 * 1000));
      [lia|].
    by rewrite !andb_false_r. }
  split; [exact Hmiss2|].
  unfold getValidToken, requestNewToken, await, get, date_now, modify. rewrite Hav.
  run_step.
  destruct (truthy _ && truthyZ _); run_step; rewrite ?Hmiss2; run_cases; done.
Qed.

Lemma short_lived_token_is_never_reused_witness :
  let short : provider := λ req, (Resolved (TokenData (Some "tok") 300), 1100) in
  let st1 := final (run (getValidToken cfg_one) 1000 short initial_state) in
  isAvailable cfg_one = true ∧
  cachedToken st1 = Some "tok" ∧
  calls (run (getValidToken cfg_one) 1100 short st1)
  = [PostToken (Some "client") (Some "secret") "translation:stream"].
Proof.
  intros short st1.
  destruct (short_lived_token_is_never_reused cfg_one 1000 short initial_state "tok" 300
              1100 short) as (_ & Hc);
    [reflexivity | reflexivity | reflexivity | vm_compute; discriminate
    | vm_compute; discriminate |].
  repeat split; assumption.
Defined.

(** ** The session store, continued *)

(** X5.  [getSessionStatus] reads through [getActiveSession]: it leaves
    the store as [getActiveSession] does (an expired session of the channel
    is evicted), sends nothing, and reports [hasSession] exactly when
    [getActiveSession] returns a session.  [isExpired] comes from a second
    read of the clock, line 338: with a session it is true exactly when the
    session has expired at that second reading, so it is the negation of
    [hasSession] when the clock has not ticked since the first read, and it
    can be true next to [hasSession] when it has.  Without a session
    [isExpired] is true, the status is [inactive] and every other field is
    null. *)
Theorem getSessionStatus_reads_through ch clk n env st :
  let r := run_ticks (getSessionStatus ch) clk n env st in
  let g := run_ticks (getActiveSession ch) clk n env st in
  final r = final g ∧ calls r = [] ∧
  ∃ info, out r = Returned info ∧
    (hasSession info = true ↔ ∃ s, out g = Returned (Some s)) ∧
    (∀ s, out g = Returned (Some s) →
       info_isExpired info = (expiresAt s <=? clk (S n)) ∧
       info_status info = status s) ∧
    (clk (S n) = clk n → info_isExpired info = negb (hasSession info)) ∧
    (hasSession info = false →
     info_isExpired info = true ∧
     info_status info = inactive ∧ info_sessionId info = None ∧
     info_source info = None ∧ info_target info = None ∧
     info_streamUrl info = None ∧ info_websocketUrl info = None ∧
     info_createdAt info = None ∧ info_expiresAt info = None).
Proof.
  intros r g. subst r g. unfold_services. run_step.
  destruct (activeSessions st !! ch) as [s|] eqn:Hs; run_step.
  - destruct (Z.leb_spec (expiresAt s) (clk n)) as [Hexp|Hlt]; run_step.
    + repeat split; try done. eexists. split; [reflexivity|]. simpl.
      repeat split; try done. by intros [? ?].
    + split; [done|]. split; [done|]. eexists. split; [reflexivity|]. simpl.
      split; [split; eauto|]. split; [by intros s' [= <-]|].
      split; [|done].
      intros ->. destruct (Z.leb_spec (expiresAt s) (clk n)); [lia | done].
  - repeat split; try done. eexists. split; [reflexivity|]. simpl.
    repeat split; try done. by intros [? ?].
Qed.

(** ** Calls on a clock that ticks *)

(** The listing keeps some of the entries, in their order, and changes
    nothing. *)
Lemma collect_active_ticks entries acc clk n env st :
  let r := run_ticks (collect_active entries acc) clk n env st in
  final r = st ∧ calls r = [] ∧
  ∃ kept, sublist kept entries ∧
    out r = Returned (acc ++ map (λ p, summary p.1 p.2) kept)%list.
Proof.
  revert acc n. induction entries as [|[ch s] rest IH]; intros acc n; simpl.
  - repeat split; try done. exists []. split; [constructor|]. by rewrite app_nil_r.
  - unfold date_now. run_step. destruct (clk n <? expiresAt s).
    + destruct (IH (acc ++ [summary ch s])%list (S n)) as (Hf & Hc & kept & Hsub & Ho).
      repeat split; try done. exists ((ch, s) :: kept). split; [by constructor|].
      rewrite Ho. simpl. by rewrite <- app_assoc.
    + destruct (IH acc (S n)) as (Hf & Hc & kept & Hsub & Ho).
      repeat split; try done. exists kept. split; [by apply sublist_cons | done].
Qed.

(** Only [createSession] adds to the store. *)
Lemma after_ticks_sessions_subseteq cfg c clk n env st :
  (∀ ch src tgt opts, c ≠ CallCreateSession ch src tgt opts) →
  activeSessions (after_ticks cfg c clk n env st) ⊆ activeSessions st.
Proof.
  intros Hc. destruct c; simpl; try (by edestruct Hc).
  all: try (unfold_services; run_cases; solve_subseteq).
  - destruct (collect_active_ticks (map_to_list (activeSessions st)) [] clk n env st)
      as (Hfin & _).
    unfold getAllActiveSessions, get. run_step. by rewrite Hfin.
  - unfold getStats, getAllActiveSessions, get. run_step.
    rewrite run_ticks_bind.
    destruct (collect_active_ticks (map_to_list (activeSessions st)) [] clk n env st)
      as (Hfin & _ & kept & _ & Ho).
    cbn zeta. rewrite Ho. cbn [final run_ticks]. by rewrite Hfin.
Qed.

(** The ways a call of [createSession] that runs alone can end, on a clock
    that ticks.  In the last, the session was stored: its [createdAt] and its
    [expiresAt] come from the last two reads of the clock, and the call
    returns it, or throws when its [expiresAt] cannot be rendered. *)
Lemma createSession_ticks_cases cfg ch src tgt opts clk n env st :
  let r := run_ticks (createSession cfg ch src tgt opts) clk n env st in
  let reads := reads_after (createSession cfg ch src tgt opts) clk n env st in
  let m := activeSessions st in
  let m' := activeSessions (final r) in
  (isAvailable cfg = false ∧ final r = st ∧
   out r = Thrown "Session creation failed: Palabra session service is not configured")
  ∨ (isAvailable cfg = true ∧
     ∃ s, m !! ch = Some s ∧ clk n < expiresAt s ∧
          out r = Returned s ∧ final r = st ∧ reads = S n)
  ∨ (isAvailable cfg = true ∧ live (clk n) m !! ch = None ∧
     (∃ msg, out r = Thrown ("Session creation failed: " +:+ msg)) ∧
     m' ⊆ m ∧ m' !! ch = None)
  ∨ (isAvailable cfg = true ∧ live (clk n) m !! ch = None ∧
     ∃ sd mid,
       m' = <[ch := sd]> mid ∧
       mid ⊆ m ∧ mid !! ch = None ∧ Z.of_nat (size mid) < maxSessions cfg ∧
       channel sd = ch ∧ status sd = active ∧ sessionId sd ≠ EmptyString ∧
       createdAt sd = clk (pred (pred reads)) ∧
       expiresAt sd = clk (pred reads) + cacheTimeout cfg ∧
       (out r = Returned sd ∨
        out r = Thrown "Session creation failed: Invalid time value")).
Proof.
  intros r reads m m'. subst r reads m m'. unfold_services.
  destruct (isAvailable cfg) eqn:Hav; run_step; [|left; done].
  right. run_cases.
  all: try (left; split; [done|]; eexists; split; [done|]; split; [lia|done]).
  all: right.
  all: try (left; split; [done|]; split; [solve_no_live|]; split; [eauto|];
            split; [solve_subseteq | solve_lookup_None]).
  all: right; split; [done|]; split; [solve_no_live|].
  all: eexists _, _; split; [reflexivity|].
  all: split; [solve_subseteq|]; split; [solve_lookup_None|]; split; [solve_capacity|].
  all: cbn [channel status sessionId createdAt expiresAt Nat.pred].
  all: split; [done|]; split; [done|]; split; [by apply String.eqb_neq|].
  all: split; [done|]; split; [done|].
  all: first [by left | by right].
Qed.

Lemma reachable_ticks_store_ok cfg st :
  reachable_ticks cfg st → store_ok cfg (activeSessions st).
Proof.
  intros Hreach. induction Hreach as [|c clk n env st Hreach IH].
  - intros k s Hk. cbn [initial_state activeSessions] in Hk.
    by rewrite lookup_empty in Hk.
  - destruct c as [ch src tgt opts| | | | | | | | | | |].
    2-12: (eapply store_ok_subseteq; [exact IH|];
           apply after_ticks_sessions_subseteq; intros; discriminate).
    simpl.
    destruct (createSession_ticks_cases cfg ch src tgt opts clk n env st)
      as [(_ & -> & _)|[(_ & s & _ & _ & _ & -> & _)|
          [(_ & _ & _ & Hsub & _)|(Hav & _ & sd & mid & -> & Hsub & _ & _ & Hsd)]]];
      try done.
    + by eapply store_ok_subseteq.
    + pose proof (store_ok_subseteq _ _ _ IH Hsub) as Hrec.
      intros k s. destruct (decide (ch = k)) as [->|Hne].
      * rewrite lookup_insert_eq. intros [= <-]. by destruct Hsd as (? & ? & ? & _).
      * rewrite lookup_insert_ne by done. apply Hrec.
Qed.

(** Calls that do not overlap keep the store within [maxSessions]. *)
Lemma reachable_ticks_size cfg st :
  0 <= maxSessions cfg → reachable_ticks cfg st →
  Z.of_nat (size (activeSessions st)) <= maxSessions cfg.
Proof.
  intros Hmax Hreach. induction Hreach as [|c clk n env st Hreach IH].
  - cbn [initial_state activeSessions]. by rewrite map_size_empty.
  - destruct c as [ch src tgt opts| | | | | | | | | | |].
    2-12: (etrans; [|exact IH]; apply inj_le, map_subseteq_size,
           after_ticks_sessions_subseteq; intros; discriminate).
    simpl.
    destruct (createSession_ticks_cases cfg ch src tgt opts clk n env st)
      as [(_ & -> & _)|[(_ & s & _ & _ & _ & -> & _)|
          [(_ & _ & _ & Hsub & _)|(_ & _ & sd & mid & -> & _ & Hnone & Hcap & _)]]];
      try done.
    + apply map_subseteq_size in Hsub. lia.
    + rewrite map_size_insert_None by done. lia.
Qed.

(** A session that [createSession] returns is the one stored for the channel
    when the call has ended. *)
Lemma createSession_ticks_returned_stored cfg ch src tgt opts clk n env st sd :
  out (run_ticks (createSession cfg ch src tgt opts) clk n env st) = Returned sd →
  activeSessions (final (run_ticks (createSession cfg ch src tgt opts) clk n env st)) !! ch
  = Some sd.
Proof.
  intros Hout.
  destruct (createSession_ticks_cases cfg ch src tgt opts clk n env st)
    as [(_ & _ & Hthrown)|[(_ & s & Hs & _ & Hret & Hfin & _)|
        [(_ & _ & [msg Hthrown] & _)|(_ & _ & sd' & mid & Hm & _ & _ & _ & _ & _ & _ & _ & _ & [Hret|Hthrown])]]];
    try congruence.
  rewrite Hm, lookup_insert_eq. congruence.
Qed.

(** X6.  Start, then status: in every state reached by calls that follow
    one another, after a start that returned a session, a status query for
    the channel whose first read of the clock is before the session expires
    reports [hasSession] with the session id that the start returned and
    status [active]; its [isExpired] is decided by the second read of the
    clock, and is false when that one too is before the expiry. *)
Theorem status_after_start cfg ch src tgt opts clk n env st sd clk' n' env' :
  reachable_ticks cfg st →
  let r := run_ticks (createSession cfg ch src tgt opts) clk n env st in
  out r = Returned sd →
  clk' n' < expiresAt sd →
  ∃ info, out (run_ticks (getSessionStatus ch) clk' n' env' (final r)) = Returned info ∧
    hasSession info = true ∧
    info_sessionId info = Some (sessionId sd) ∧
    info_status info = active ∧
    info_isExpired info = (expiresAt sd <=? clk' (S n')).
Proof.
  intros Hreach r Hout Hlt.
  pose proof (createSession_ticks_returned_stored _ _ _ _ _ _ _ _ _ _ Hout) as Hstored.
  assert (Hreach' : reachable_ticks cfg (final r))
    by apply (reachable_ticks_after cfg (CallCreateSession ch src tgt opts) clk n env st
                Hreach).
  destruct (reachable_ticks_store_ok cfg _ Hreach' ch sd Hstored) as (_ & _ & Hact & Hid).
  subst r. unfold_services. run_step. rewrite Hstored. run_step.
  destruct (Z.leb_spec (expiresAt sd) (clk' n')); [lia|]. run_step.
  eexists. split; [reflexivity|]. simpl.
  repeat split; try done.
  unfold or_null_str, truthy.
  apply String.eqb_neq in Hid. by rewrite Hid.
Qed.

Lemma status_after_start_witness :
  ∃ info,
    out (run_ticks (getSessionStatus "room1") clock_settling 3 env_ok st_settled)
    = Returned info ∧
    hasSession info = true ∧ info_sessionId info = Some "sid-room1".
Proof.
  destruct (status_after_start cfg_one "room1" "en" "es" no_options clock_settling 0
              env_ok initial_state session_settled clock_settling 3 env_ok)
    as (info & Ho & Hh & Hi & _);
    [apply reachable_ticks_initial | reflexivity | reflexivity |].
  exists info. repeat split; assumption.
Defined.

(** X7.  Stop, then status: after [endSession], whatever the provider
    answered and whether or not a session was stored, [getActiveSession]
    returns null for the channel and the status reports [hasSession] false,
    status [inactive] and [isExpired] true. *)
Theorem status_after_stop ch now env st now' env' :
  let st1 := final (run (endSession ch) now env st) in
  out (run (getActiveSession ch) now' env' st1) = Returned None ∧
  ∃ info, out (run (getSessionStatus ch) now' env' st1) = Returned info ∧
    hasSession info = false ∧ info_status info = inactive ∧
    info_isExpired info = true.
Proof.
  intros st1.
  assert (Hgone : activeSessions st1 !! ch = None).
  { subst st1. unfold_services. run_cases; first [done | apply lookup_delete_eq]. }
  unfold_services. run_step. rewrite Hgone. run_step.
  split; [done|]. eexists. split; [reflexivity|]. done.
Qed.

(** ** The expiry sweep, continued *)

(** X8.  The sweep is invisible to the reads: for a clock that does not go
    back, [getActiveSession] and [getSessionStatus] return, after a call of
    [cleanupExpiredSessions], what they would have returned without it; the
    sweep removes exactly the sessions with [expiresAt <= now] and leaves
    every other record, the token cache and the tasks as they were. *)
Theorem sweep_is_invisible_to_reads ch now env st now' env' :
  now <= now' →
  let st1 := final (run cleanupExpiredSessions now env st) in
  out (run (getActiveSession ch) now' env' st1)
  = out (run (getActiveSession ch) now' env' st) ∧
  out (run (getSessionStatus ch) now' env' st1)
  = out (run (getSessionStatus ch) now' env' st) ∧
  (∀ k, activeSessions st1 !! k
        = match activeSessions st !! k with
          | Some s => if expiresAt s <=? now then None else Some s
          | None => None
          end) ∧
  cachedToken st1 = cachedToken st ∧ tokenExpiry st1 = tokenExpiry st ∧
  activeTasks st1 = activeTasks st.
Proof.
  intros Hle st1. subst st1. unfold_services. run_step.
  rewrite !sweep_lookup.
  destruct (activeSessions st !! ch) as [s|] eqn:Hs; run_step.
  - destruct (Z.leb_spec (expiresAt s) now) as [Hexp|Hlt]; run_step.
    + destruct (Z.leb_spec (expiresAt s) now'); [|lia]. run_step.
      repeat split; try done. intros k. apply sweep_lookup.
    + destruct (Z.leb_spec (expiresAt s) now'); run_step;
        (repeat split; try done; intros k; apply sweep_lookup).
  - repeat split; try done. intros k. apply sweep_lookup.
Qed.

Lemma sweep_is_invisible_to_reads_witness :
  2000 <= 4000000 ∧
  out (run (getActiveSession "room1") 4000000 env_ok
         (final (run cleanupExpiredSessions 2000 env_ok st_room1)))
  = out (run (getActiveSession "room1") 4000000 env_ok st_room1).
Proof.
  split; [vm_compute; discriminate|].
  apply (sweep_is_invisible_to_reads "room1" 2000 env_ok st_room1 4000000 env_ok).
  vm_compute; discriminate.
Defined.

(** X9.  Sweeps compose: a sweep at [n1] followed by a sweep at [n2] leaves
    the store that one sweep at the later of the two times leaves, so a
    repeated sweep changes nothing; after a sweep at [n] every stored
    session has [n < expiresAt]. *)
Theorem sweeps_compose n1 n2 (m : gmap string session) :
  sweep n2 (sweep n1 m) = sweep (Z.max n1 n2) m ∧
  sweep n1 (sweep n1 m) = sweep n1 m ∧
  ∀ k s, sweep n1 m !! k = Some s → m !! k = Some s ∧ n1 < expiresAt s.
Proof.
  assert (Hcomp : ∀ a b, sweep b (sweep a m) = sweep (Z.max a b) m).
  { intros a b. apply map_eq; intros k. rewrite !sweep_lookup.
    destruct (m !! k) as [s|]; [|done].
    destruct (Z.leb_spec (expiresAt s) a), (Z.leb_spec (expiresAt s) (Z.max a b));
      try lia; try done.
    all: destruct (Z.leb_spec (expiresAt s) b); first [done | lia]. }
  split; [apply Hcomp|]. split.
  - rewrite Hcomp. by rewrite Z.max_id.
  - intros k s. rewrite sweep_lookup. destruct (m !! k) as [s'|]; [|done].
    destruct (Z.leb_spec (expiresAt s') n1); [done|]. intros [= ->]. done.
Qed.

(** ** Statistics *)



(** ** Starting a session, continued *)

Lemma subseteq_empty_sessions (m : gmap string session) : m ⊆ ∅ → m = ∅.
Proof.
  intros Hsub. apply map_size_empty_inv. apply map_subseteq_size in Hsub.
  rewrite map_size_empty in Hsub. lia.
Qed.

(** X11.  With a maximum that is not positive no session is ever stored:
    in every state reached by calls that follow one another the store is
    empty, and every start throws without a provider call. *)
Theorem nonpositive_maximum_disables_starts cfg st ch src tgt opts now env :
  maxSessions cfg <= 0 →
  reachable cfg st →
  let r := run (createSession cfg ch src tgt opts) now env st in
  activeSessions st = ∅ ∧
  (∃ msg, out r = Thrown ("Session creation failed: " +:+ msg)) ∧
  calls r = [] ∧
  activeSessions (final r) = ∅.
Proof.
  intros Hmax Hreach r.
  assert (Hempty : ∀ st', reachable cfg st' → activeSessions st' = ∅).
  { clear Hreach r. intros st' Hr.
    induction Hr as [|c now0 env0 st0 Hr IH]; [done|].
    destruct c as [ch0 src0 tgt0 opts0| | | | | | | | | | |].
    2-12: (apply subseteq_empty_sessions; rewrite <- IH;
           apply after_sessions_subseteq; intros; discriminate).
    simpl.
    destruct (createSession_cases cfg ch0 src0 tgt0 opts0 now0 env0 st0)
      as [(_ & -> & _)|[(_ & s & _ & _ & _ & -> & _)|
          [(_ & _ & _ & Hsub & _)|(_ & _ & sd & mid & _ & _ & _ & Hcap & _)]]];
      try done.
    - apply subseteq_empty_sessions. by rewrite <- IH.
    - lia. }
  assert (Hst := Hempty st Hreach).
  assert (Hfin : activeSessions (final r) = ∅).
  { apply (Hempty (final r)).
    apply (reachable_after cfg (CallCreateSession ch src tgt opts) now env st Hreach). }
  split; [done|]. split; [|split; [|done]].
  all: destruct (createSession_cases cfg ch src tgt opts now env st)
      as [(_ & _ & Hc & Hout)|[(_ & s & Hs & _)|
          [(Hav & Hlive & Hout & _)|(_ & _ & sd & mid & _ & _ & _ & Hcap & _)]]];
    try lia; try (by rewrite Hst, lookup_empty in Hs).
  - subst r. rewrite Hout. eauto.
  - done.
  - done.
  - pose proof (createSession_capacity_gate cfg ch src tgt opts now env st Hav Hlive)
      as Hgate. simpl in Hgate.
    destruct (Z.leb_spec (maxSessions cfg)
                (Z.of_nat (size (live now (activeSessions st))))); [|lia].
    by destruct Hgate as (_ & ? & _).
Qed.




(** X13.  A start whose token request fails stops there: when
    [createSession] sends a token request and the response is rejected or
    carries no [access_token], the start throws an error that carries the
    cause, sends no session request, stores no session for the channel and
    leaves the token cache as it was. *)
Theorem createSession_token_failure cfg ch src tgt opts now env st id secret sc :
  let r := run (createSession cfg ch src tgt opts) now env st in
  PostToken id secret sc ∈ calls r →
  accepted_token (env (PostToken id secret sc)).1 = None →
  out r = Thrown ("Session creation failed: OAuth token request failed: "
                  +:+ token_error (env (PostToken id secret sc)).1) ∧
  calls r = [PostToken id secret sc] ∧
  activeSessions (final r) !! ch = None ∧
  cachedToken (final r) = cachedToken st ∧ tokenExpiry (final r) = tokenExpiry st.
Proof.
  intros r Hin Hfail. subst r. unfold_services. revert Hin Hfail. run_cases.
  all: intros Hin Hfail; invert_calls; try discriminate.
  all: injection Hin as -> -> ->.
  all: repeat match goal with
              | H : fst _ = _ |- _ => rewrite H in *
              end; simpl in Hfail |- *.
  all: repeat match goal with
              | H : String.eqb _ _ = _ |- _ => rewrite H in *
              end; try discriminate.
  all: repeat split; try reflexivity; solve_lookup_None.
Qed.

Lemma createSession_token_failure_witness :
  let rejecting : provider := λ req, (Rejected (Some 401) "Request failed with status code 401", 1100) in
  let r := run (createSession cfg_one "room1" "en" "es" no_options) 1000 rejecting
             initial_state in
  out r = Thrown "Session creation failed: OAuth token request failed: Request failed with status code 401" ∧
  calls r = [PostToken (Some "client") (Some "secret") "translation:stream"].
Proof.
  intros rejecting r.
  destruct (createSession_token_failure cfg_one "room1" "en" "es" no_options 1000
              rejecting initial_state (Some "client") (Some "secret") "translation:stream")
    as (Ho & Hc & _);
    [vm_compute; apply list_elem_of_here | reflexivity |].
  split; assumption.
Defined.

(** ** The Agora task store *)

(** X14.  Storing and reading a task: [storeTask] with a channel and a
    task id that are not empty records the id under the channel, replacing
    any earlier task of the channel, so [getTask] returns it; with an empty
    channel or without a task id it changes nothing.  It never touches the
    task of another channel, the sessions or the token cache, and sends
    nothing. *)
Theorem storeTask_getTask ch task_id now env st now' env' :
  let r := run (storeTask ch task_id) now env st in
  let g := run (getTask ch) now' env' (final r) in
  (if truthy (Some ch) && truthy task_id
   then ∃ t, out g = Returned (Some t) ∧ Some (taskId t) = task_id ∧
             taskCreatedAt t = now
   else final r = st) ∧
  (∀ ch', ch' ≠ ch → activeTasks (final r) !! ch' = activeTasks st !! ch') ∧
  activeSessions (final r) = activeSessions st ∧
  cachedToken (final r) = cachedToken st ∧ tokenExpiry (final r) = tokenExpiry st ∧
  calls r = [] ∧ out r = Returned tt ∧ final g = final r.
Proof.
  intros r g. subst r g. unfold storeTask, getTask, truthy, modify, get, date_now.
  destruct task_id as [id|]; run_step.
  - destruct (String.eqb ch EmptyString), (String.eqb id EmptyString); simpl; run_step;
      repeat split; try done.
    + eexists. rewrite lookup_insert_eq. done.
    + intros ch' Hne. by rewrite lookup_insert_ne.
  - rewrite andb_false_r. done.
Qed.

(** X15.  Store, then stop: on a configured service, after [storeTask]
    recorded a task id for the channel, [stopTranslationTask] sends the
    DELETE for exactly that id, whatever was stored before, and afterwards
    the channel has no task; a second stop then returns [false] without a
    call. *)
Theorem stop_after_store cfg ch id now env st now1 env1 now2 env2 :
  isConfigured cfg = true →
  ch ≠ EmptyString → id ≠ EmptyString →
  let st1 := final (run (storeTask ch (Some id)) now env st) in
  let r1 := run (stopTranslationTask cfg ch) now1 env1 st1 in
  let r2 := run (stopTranslationTask cfg ch) now2 env2 (final r1) in
  calls r1 = [DeleteAgoraTask id] ∧
  out r1 = Returned (resolved (env1 (DeleteAgoraTask id)).1) ∧
  activeTasks (final r1) !! ch = None ∧
  out r2 = Returned false ∧ calls r2 = [] ∧ final r2 = final r1.
Proof.
  intros Hconf Hch Hid st1 r1 r2.
  apply String.eqb_neq in Hch, Hid.
  assert (Hst1 : activeTasks st1 !! ch = Some {| taskId := id; taskCreatedAt := now |}).
  { subst st1. unfold storeTask, modify, date_now. rewrite Hch, Hid. run_step.
    apply lookup_insert_eq. }
  clearbody st1.
  assert (Hr1 : calls r1 = [DeleteAgoraTask id] ∧
                out r1 = Returned (resolved (env1 (DeleteAgoraTask id)).1) ∧
                activeTasks (final r1) !! ch = None).
  { subst r1 r2. unfold_services. rewrite Hconf. run_step. rewrite Hst1.
    run_step. cbn [taskId].
    run_cases; repeat split; first [done | apply lookup_delete_eq]. }
  destruct Hr1 as (Hc1 & Ho1 & Hgone). clearbody r1.
  repeat split; try done.
  all: subst r2; unfold_services; rewrite Hconf; run_step; rewrite Hgone; done.
Qed.

Lemma stop_after_store_witness :
  let st1 := final (run (storeTask "room2" (Some "t9")) 1600 env_ok st_room1) in
  isConfigured cfg_one = true ∧
  activeTasks st_room1 !! "room2" = Some {| taskId := "t1"; taskCreatedAt := 1500 |} ∧
  calls (run (stopTranslationTask cfg_one "room2") 2000 env_failing st1)
  = [DeleteAgoraTask "t9"].
Proof.
  intros st1.
  destruct (stop_after_store cfg_one "room2" "t9" 1600 env_ok st_room1 2000 env_failing
              2100 env_ok) as (Hc & _);
    [reflexivity | discriminate | discriminate |].
  repeat split; assumption.
Defined.

(** X16.  The three stores are separate: no call of the session service or
    of the token service changes the Agora tasks, no call of the Agora
    service or of the token service changes the sessions, and the token
    cache changes only in [getValidToken], [clearCachedToken] and
    [createSession]. *)
Theorem stores_are_separate cfg c now env st :
  let st' := after cfg c now env st in
  match c with
  | CallStoreTask _ _ | CallStopTranslationTask _ =>
      activeSessions st' = activeSessions st ∧
      cachedToken st' = cachedToken st ∧ tokenExpiry st' = tokenExpiry st
  | CallGetValidToken | CallClearCachedToken =>
      activeSessions st' = activeSessions st ∧ activeTasks st' = activeTasks st
  | CallCreateSession _ _ _ _ =>
      activeTasks st' = activeTasks st
  | CallGetTokenStatus => st' = st
  | _ =>
      activeTasks st' = activeTasks st ∧
      cachedToken st' = cachedToken st ∧ tokenExpiry st' = tokenExpiry st
  end.
Proof.
  intros st'. subst st'. destruct c; simpl.
  all: try (unfold_services; run_cases; done).
  - destruct (collect_active_run (map_to_list (activeSessions st)) [] now env st)
      as (_ & Hfin & _).
    unfold getAllActiveSessions, get. run_step. simpl in Hfin. by rewrite Hfin.
  - unfold getStats, getAllActiveSessions, get. run_step.
    rewrite collect_active_bind. run_step. done.
Qed.

(** ** Validation *)

(** X17.  A language code is accepted exactly when it is two lower-case
    letters, alone or followed by a hyphen and two upper-case letters.  So an
    accepted code has length 2 or 5, and the two length tests of
    [isValidLanguageCode] never decide: on a string the function is the
    pattern test alone. *)
Theorem isValidLanguageCode_shape v :
  (isValidLanguageCode v = true ↔
   ∃ a b, is_lower a = true ∧ is_lower b = true ∧
     (v = JsString (String a (String b EmptyString)) ∨
      ∃ c d, is_upper c = true ∧ is_upper d = true ∧
        v = JsString (String a (String b (String "-" (String c (String d EmptyString))))))) ∧
  (∀ s, isValidLanguageCode (JsString s) = language_pattern s) ∧
  (∀ s, isValidLanguageCode (JsString s) = true →
        String.length s = 2%nat ∨ String.length s = 5%nat).
Proof.
  assert (Hpat : ∀ s, language_pattern s = true ↔
            ∃ a b, is_lower a = true ∧ is_lower b = true ∧
              (s = String a (String b EmptyString) ∨
               ∃ c d, is_upper c = true ∧ is_upper d = true ∧
                 s = String a (String b (String "-" (String c (String d EmptyString)))))).
  { intros s. split.
    - destruct s as [|a [|b rest]]; simpl; try done.
      intros H. apply andb_prop in H as [H Hrest]. apply andb_prop in H as [Ha Hb].
      exists a, b. split; [done|]. split; [done|].
      destruct rest as [|d [|e [|f [|? ?]]]]; try done; [by left|].
      apply andb_prop in Hrest as [H Hf]. apply andb_prop in H as [Hd He].
      apply Ascii.eqb_eq in Hd as ->. right. by exists e, f.
    - intros (a & b & Ha & Hb & [->|(c & d & Hc & Hd & ->)]); simpl;
        rewrite Ha, Hb; [done|]. by rewrite Hc, Hd. }
  assert (Hlen : ∀ s, language_pattern s = true →
            String.length s = 2%nat ∨ String.length s = 5%nat).
  { intros s Hs. apply Hpat in Hs as (a & b & _ & _ & [->|(c & d & _ & _ & ->)]);
      [by left | by right]. }
  assert (Hsame : ∀ s, isValidLanguageCode (JsString s) = language_pattern s).
  { intros s. simpl. destruct (language_pattern s) eqn:Hs.
    - by destruct (Hlen s Hs) as [->| ->].
    - by rewrite andb_false_r. }
  split; [|split].
  - destruct v as [| | | | |s|]; try (split; [done|]).
    6: { rewrite Hsame, Hpat. split.
         - intros (a & b & Ha & Hb & [->|(c & d & Hc & Hd & ->)]); exists a, b; eauto 10.
         - intros (a & b & Ha & Hb & [[= ->]|(c & d & Hc & Hd & [= ->])]);
             exists a, b; eauto 10. }
    all: by intros (? & ? & _ & _ & [?|(? & ? & _ & _ & ?)]).
  - exact Hsame.
  - intros s Hs. rewrite Hsame in Hs. by apply Hlen.
Qed.

(** X18.  Every language code that the controller and the socket handlers
    accept is accepted by [TranslationService.isValidLanguageCode], which
    tests the length alone; the converse fails, the service accepts ["EN"]
    and the controller does not. *)
Theorem controller_codes_are_service_codes v :
  (isValidLanguageCode v = true → TranslationService.isValidLanguageCode v = true) ∧
  TranslationService.isValidLanguageCode (JsString "EN") = true ∧
  isValidLanguageCode (JsString "EN") = false.
Proof.
  split; [|done].
  destruct v as [| | | | |s|]; simpl; try done.
  intros H. apply andb_prop in H as [H _]. exact H.
Qed.

Lemma validateTokenParams_accepts_iff ch uid :
  isValid (validateTokenParams ch uid) = true ↔
  (∃ s, ch = JsString s ∧ s ≠ EmptyString) ∧
  (uid = JsUndefined ∨ uid = JsNull ∨ uid = JsNaN ∨ ∃ n, uid = JsNumber n ∧ 0 <= n).
Proof.
  unfold validateTokenParams. cbn [isValid errors].
  destruct ch as [| | | | |s|]; simpl.
  6: destruct (String.eqb_spec s EmptyString).
  all: destruct uid as [| | |z| |u|]; simpl; try destruct (Z.ltb_spec z 0); simpl.
  all: split; [try done | ].
  all: try (intros [(s' & Hs & Hne) Huid]; simplify_eq;
            destruct Huid as [?|[?|[?|(n' & ? & ?)]]]; simplify_eq; try lia; done).
  all: intros _; split; eauto 8.
Qed.

(** X19.  [validateTokenParams] accepts exactly a channel that is a string
    and not empty together with a uid that is absent (undefined, null), NaN,
    or a number that is not negative; zero is accepted.  A uid given as a
    string, numeric or not, is rejected.  The result is valid exactly when
    it lists no error, and it lists at most two. *)
Theorem validateTokenParams_accepts ch uid :
  let v := validateTokenParams ch uid in
  (isValid v = true ↔
   (∃ s, ch = JsString s ∧ s ≠ EmptyString) ∧
   (uid = JsUndefined ∨ uid = JsNull ∨ uid = JsNaN ∨ ∃ n, uid = JsNumber n ∧ 0 <= n)) ∧
  (isValid v = true ↔ errors v = []) ∧
  (length (errors v) ≤ 2)%nat ∧
  (∀ s, uid = JsString s → "UID must be a positive number" ∈ errors v).
Proof.
  intros v. subst v. split; [|split; [|split]].
  - apply validateTokenParams_accepts_iff.
  - unfold validateTokenParams; cbn [isValid errors].
    destruct ch as [| | | | |s|]; simpl; try destruct (String.eqb s EmptyString);
      destruct uid as [| | |z| |u|]; simpl; try destruct (z <? 0); simpl; done.
  - unfold validateTokenParams; cbn [isValid errors].
    destruct ch as [| | | | |s|]; simpl; try destruct (String.eqb s EmptyString);
      destruct uid as [| | |z| |u|]; simpl; try destruct (z <? 0); simpl; lia.
  - intros s ->. unfold validateTokenParams; cbn [isValid errors]. apply elem_of_app. right. apply list_elem_of_here.
Qed.

(** ** Issuing Agora tokens *)

(** X20.  [TokenController.generateToken] answers 400, 200 or 500.  It
    answers 400 exactly when [validateTokenParams] rejects the channel or the
    uid, with the validation errors and no token.  Otherwise the outcome is
    that of the token builder on the channel, the parsed uid or the random
    one, and the expiry [now / 1000] plus the parsed lifetime or the default:
    the handler answers 200 with the token when the builder returns, and 500
    with the message of the error when the builder throws.
    A uid that is a string, as every query parameter is, is therefore
    rejected; and whenever a token is issued for a uid that is not a number,
    its uid is the random one. *)
Theorem TokenController_generateToken_replies tcfg build parseInt ch uid expire rnd now :
  let rep := TokenController_generateToken tcfg build parseInt ch uid expire rnd now in
  let finalUid := or_Z (if js_truthy uid then parseInt uid else None) rnd in
  let privilegeTs :=
    now / 1000 + or_Z (if js_truthy expire then parseInt expire else None)
                   (defaultExpireSeconds tcfg) in
  (reply_code rep = 400 ↔ isValid (validateTokenParams ch uid) = false) ∧
  (reply_code rep = 400 →
   reply_error rep = Some "Invalid parameters" ∧
   reply_details rep = errors (validateTokenParams ch uid) ∧
   reply_data rep = None) ∧
  (isValid (validateTokenParams ch uid) = true →
   ∃ s, ch = JsString s ∧
     match build (appId tcfg) (appCert tcfg) s finalUid privilegeTs with
     | Returned token =>
         reply_code rep = 200 ∧
         ∃ td, reply_data rep = Some td ∧ td_token td = token ∧
               td_uid td = finalUid ∧ td_expiresAt td = privilegeTs
     | Thrown msg =>
         rep = reply_fail 500 "Internal server error"
                 (Some ("Token generation failed: " +:+ msg)) []
     end) ∧
  ((∃ s, uid = JsString s) → reply_code rep = 400) ∧
  (∀ td, reply_data rep = Some td → (∀ n, uid ≠ JsNumber n) → td_uid td = rnd).
Proof.
  intros rep finalUid privilegeTs. subst rep finalUid privilegeTs.
  unfold TokenController_generateToken.
  destruct (isValid (validateTokenParams ch uid)) eqn:Hv; cbn [negb].
  - apply (proj1 (validateTokenParams_accepts_iff ch uid)) in Hv
      as [(s & -> & Hs) Huid].
    apply String.eqb_neq in Hs. unfold generateToken. rewrite Hs.
    destruct (build _ _ _ _ _) as [token|msg] eqn:Hb; cbn.
    + split; [split; [lia | done]|]. split; [lia|].
      split; [intros _; exists s; split; [done|]; rewrite Hb; eauto 8|].
      split.
      * intros (u & ->). destruct Huid as [?|[?|[?|(? & ? & _)]]]; done.
      * intros td [= <-] Hnum. simpl.
        destruct Huid as [->|[->|[->|(n & -> & _)]]]; simpl; try done.
        by destruct (Hnum n).
    + split; [split; [lia | done]|]. split; [lia|].
      split; [intros _; exists s; split; [done|]; by rewrite Hb|].
      split; [|done].
      intros (u & ->). destruct Huid as [?|[?|[?|(? & ? & _)]]]; done.
  - cbn. split; [done|]. split; [done|]. split; [done|]. split; [done|]. done.
Qed.

(** A lifetime that does not fit the 32 bits of the token: the builder
    throws and the handler answers 500. *)
Lemma TokenController_generateToken_out_of_range :
  TokenController_generateToken tcfg_one join_token_32 (λ _, Some 5000000000)
    (JsString "room1") JsUndefined (JsString "5000000000") 4242 1700000999
  = reply_fail 500 "Internal server error"
      (Some "Token generation failed: The value is out of range") [].
Proof. reflexivity. Qed.

(** X21.  A token that [generateToken] issues carries the channel it was
    asked for, which is a string and not empty; [generatedAt] is the clock in
    whole seconds; the lifetime [expiresAt - generatedAt] is the requested
    one, or the default when none or zero is requested, so with a default
    that is not zero it is never zero; and a requested uid of zero is
    replaced by the random uid. *)
Theorem generateToken_lifetime tcfg build ch uid expire rnd now td :
  generateToken tcfg build ch uid expire rnd now = Returned td →
  defaultExpireSeconds tcfg ≠ 0 →
  ch = JsString (td_channel td) ∧ td_channel td ≠ EmptyString ∧
  1000 * td_generatedAt td <= now < 1000 * td_generatedAt td + 1000 ∧
  td_expiresAt td - td_generatedAt td = or_Z expire (defaultExpireSeconds tcfg) ∧
  td_expiresAt td ≠ td_generatedAt td ∧
  (uid = Some 0 ∨ uid = None → td_uid td = rnd).
Proof.
  unfold generateToken. intros Hgen Hdef.
  destruct ch as [| | | | |s|]; try discriminate.
  destruct (String.eqb_spec s EmptyString); [discriminate|].
  destruct (build _ _ _ _ _) as [token|msg]; [|discriminate].
  injection Hgen as <-. simpl.
  assert (Hlife : or_Z expire (defaultExpireSeconds tcfg) ≠ 0).
  { unfold or_Z. destruct expire as [e|]; [|done]. by destruct (Z.eqb_spec e 0). }
  repeat split; try done.
  - apply Z.mul_div_le. lia.
  - pose proof (Z.mul_succ_div_gt now 1000). lia.
  - lia.
  - lia.
  - by intros [-> | ->].
Qed.

Lemma generateToken_lifetime_witness :
  ∃ td, generateToken tcfg_one join_token (JsString "room1") (Some 0) None 4242 1700000999
        = Returned td ∧
        td_uid td = 4242 ∧ td_generatedAt td = 1700000 ∧ td_expiresAt td = 1703600.
Proof.
  eexists. split; [reflexivity|].
  destruct (generateToken_lifetime tcfg_one join_token (JsString "room1") (Some 0) None
              4242 1700000999 _ eq_refl) as (_ & _ & _ & _ & _ & Huid);
    [discriminate|].
  split; [apply Huid; by left | split; reflexivity].
Defined.

(** ** The HTTP handlers of the session service *)

(** A handler that awaits one service call and turns its result or its
    error into a reply sends what the service call sends and leaves the state
    the service call leaves. *)
Lemma run_reply {A B} (t : task A) (f : A → B) (g : string → B) now env st :
  run (try_catch (bind t (λ a, Ret (f a))) (λ msg, Ret (g msg))) now env st
  = {| final := final (run t now env st);
       out := Returned match out (run t now env st) with
                       | Returned a => f a
                       | Thrown msg => g msg
                       end;
       calls := calls (run t now env st) |}.
Proof.
  revert now st. induction t as [a|e|k IH|st' k IH|k IH|req k IH]; intros now st; simpl;
    try done; try apply IH.
  by rewrite IH.
Qed.

(** X22.  [startTranslation] lets only validated input reach the session
    service: without a channel, or with a language that is missing or is not
    an accepted code, it answers 400, sends nothing and changes nothing.
    Otherwise it runs [createSession] on the channel and the two codes and
    answers 200 with the session when that returns, 500 with the message of
    the error when that throws; nothing is thrown past the handler. *)
Theorem startTranslation_validates cfg ch src tgt opts now env st :
  let r := run (startTranslation cfg ch src tgt opts) now env st in
  ∃ rep, out r = Returned rep ∧
    if truthy ch && isValidLanguageCode src && isValidLanguageCode tgt then
      ∃ c s t, ch = Some c ∧ src = JsString s ∧ tgt = JsString t ∧
        let cr := run (createSession cfg c s t (default no_options opts)) now env st in
        final r = final cr ∧ calls r = calls cr ∧
        match out cr with
        | Returned sd => rep = reply_ok (Some (session_view_of sd)) None
        | Thrown msg =>
            rep = reply_fail 500 "Failed to start translation session" (Some msg) []
        end
    else
      reply_code rep = 400 ∧ reply_data rep = None ∧ calls r = [] ∧ final r = st.
Proof.
  intros r. subst r. unfold startTranslation.
  destruct (truthy ch) eqn:Hch; simpl; [|eexists; split; [reflexivity | done]].
  destruct ch as [c|]; [|done].
  destruct (isValidLanguageCode src) eqn:Hsrc; simpl.
  - destruct (isValidLanguageCode tgt) eqn:Htgt; simpl.
    + destruct src as [| | | | |s|]; try discriminate.
      destruct tgt as [| | | | |t|]; try discriminate.
      assert (js_truthy (JsString s) = true ∧ js_truthy (JsString t) = true) as [-> ->].
      { simpl in *. split.
        - by destruct s.
        - by destruct t. }
      simpl. rewrite run_reply. simpl.
      eexists. split; [reflexivity|]. exists c, s, t. repeat split; try done.
      unfold no_options. by destruct (out _).
    + destruct (negb (js_truthy src) || negb (js_truthy tgt));
        simpl; eexists; (split; [reflexivity | done]).
  - destruct (negb (js_truthy src) || negb (js_truthy tgt));
      simpl; eexists; (split; [reflexivity | done]).
Qed.

(** X23.  [stopTranslation] answers 200, 400 or 404 and never 500.  For a
    channel that is not empty the session record is gone afterwards, and the
    answer is 200 exactly when a session was stored and the provider call
    resolved; it is 404, "not found or already ended", both when no session
    was stored and when a session was stored and removed but the provider
    call failed. *)
Theorem stopTranslation_replies ch now env st :
  let r := run (stopTranslation ch) now env st in
  ∃ rep, out r = Returned rep ∧
    (reply_code rep = 200 ∨ reply_code rep = 400 ∨ reply_code rep = 404) ∧
    if truthy ch then
      ∃ c, ch = Some c ∧
        activeSessions (final r) !! c = None ∧
        (reply_code rep = 200 ↔
         ∃ s, activeSessions st !! c = Some s ∧
              resolved (env (DeleteSession (sessionId s) (accessToken s))).1 = true) ∧
        (reply_code rep ≠ 200 →
         rep = reply_fail 404 "Translation session not found or already ended" None [])
    else
      reply_code rep = 400 ∧ calls r = [] ∧ final r = st.
Proof.
  intros r. subst r. unfold stopTranslation, truthy.
  destruct ch as [c|]; [|simpl; eexists; split; [reflexivity|]; split; [eauto | done]].
  destruct (String.eqb c EmptyString); simpl;
    [eexists; split; [reflexivity|]; split; [eauto | done]|].
  unfold_services. run_step.
  destruct (activeSessions st !! c) as [s|] eqn:Hs; run_step.
  - destruct ((env _).1) as [d|code msg] eqn:Henv; run_step.
    + eexists. split; [reflexivity|]. split; [by left|]. exists c.
      split; [done|]. split; [apply lookup_delete_eq|]. split.
      * split; [|done]. intros _. exists s. by rewrite Henv.
      * intros H. by destruct H.
    + eexists. split; [reflexivity|]. split; [by right; right|]. exists c.
      split; [done|]. split; [apply lookup_delete_eq|]. split.
      * split; [discriminate|].
        intros (s' & Heq & Hres). simplify_eq. by rewrite Henv in Hres.
      * done.
  - eexists. split; [reflexivity|]. split; [by right; right|]. exists c.
    split; [done|]. split; [done|]. split.
    + split; [discriminate|]. intros (s' & Hs' & _). by rewrite Hs in Hs'.
    + done.
Qed.

(** ** The [stop_translation] socket handler *)

(** X24.  What the [stop_translation] handler emits.  Without a channel:
    one [translation_stop_error] to the requester, nothing else, no call.
    With a channel: the acknowledgement first; then, exactly when the service
    is configured, a task is stored for the channel and its DELETE call
    resolved, [translation_stopped] to the room and to the requester and
    [translation_session_stopped] to the room; in every other case a single
    [translation_stop_error] to the requester and nothing to the room.  The
    stored task of the channel is removed whenever the DELETE call was made. *)
Theorem on_stop_translation_events cfg socket_id ch now env st :
  let r := run (on_stop_translation cfg socket_id ch) now env st in
  ∃ evs, out r = Returned evs ∧
    match ch with
    | Some c =>
        if String.eqb c EmptyString then
          map em_event evs = ["translation_stop_error"] ∧
          map em_target evs = [ToSender] ∧ calls r = [] ∧ final r = st
        else
          let stopped :=
            isConfigured cfg &&
            match activeTasks st !! c with
            | Some t => resolved (env (DeleteAgoraTask (taskId t))).1
            | None => false
            end in
          if stopped then
            map em_event evs
            = ["translation_stop_acknowledged"; "translation_stopped";
               "translation_stopped"; "translation_session_stopped"] ∧
            map em_target evs = [ToSender; ToRoom c; ToSender; ToRoom c] ∧
            activeTasks (final r) !! c = None
          else
            map em_event evs
            = ["translation_stop_acknowledged"; "translation_stop_error"] ∧
            map em_target evs = [ToSender; ToSender] ∧
            (isConfigured cfg = true → activeTasks (final r) !! c = None)
    | None =>
        map em_event evs = ["translation_stop_error"] ∧
        map em_target evs = [ToSender] ∧ calls r = [] ∧ final r = st
    end.
Proof.
  intros r. subst r. unfold on_stop_translation.
  destruct ch as [c|];
    [|unfold date_now; run_step; eexists; split; [reflexivity | done]].
  destruct (String.eqb c EmptyString);
    [unfold date_now; run_step; eexists; split; [reflexivity | done]|].
  unfold_services. run_step.
  destruct (isConfigured cfg); run_step; simpl;
    [|eexists; split; [reflexivity | done]].
  destruct (activeTasks st !! c) as [t|] eqn:Ht; run_step.
  - destruct ((env _).1) as [d|code msg]; run_step; simpl;
      (eexists; split; [reflexivity|]; repeat split; try done;
       try intros _; apply lookup_delete_eq).
  - eexists. split; [reflexivity|]. done.
Qed.

(** ** Witnesses of the properties above *)

Lemma nonpositive_maximum_disables_starts_witness :
  maxSessions cfg_negative <= 0 ∧
  ∃ msg, out (run (createSession cfg_negative "room1" "en" "es" no_options) 1000 env_ok
                initial_state)
         = Thrown ("Session creation failed: " +:+ msg).
Proof.
  assert (Hmax : maxSessions cfg_negative <= 0) by (vm_compute; discriminate).
  split; [exact Hmax|].
  destruct (nonpositive_maximum_disables_starts cfg_negative initial_state "room1" "en"
              "es" no_options 1000 env_ok Hmax (reachable_initial _)) as (_ & H & _).
  exact H.
Defined.

(** ** The store between calls, continued *)

Lemma NoDup_summary_channels (kept entries : list (string * session)) :
  sublist kept entries → NoDup (entries.*1) →
  NoDup (map sum_channel (map (λ p, summary p.1 p.2) kept)).
Proof.
  intros Hsub Hnd. rewrite map_map.
  apply (sublist_NoDup _ (entries.*1)); [exact Hnd|].
  by apply (fmap_sublist fst).
Qed.

(** X25.  What every stored session looks like, in every state reached by
    calls that follow one another, on a clock that ticks: it is filed under
    its own channel, its session id is not empty, its status is [active],
    and the service is configured.  The listing shows each channel at most
    once. *)
Theorem stored_sessions_are_well_formed cfg st clk n env :
  reachable_ticks cfg st →
  (∀ k s, activeSessions st !! k = Some s →
     channel s = k ∧ sessionId s ≠ EmptyString ∧ status s = active ∧
     isAvailable cfg = true) ∧
  ∃ sessions, out (run_ticks getAllActiveSessions clk n env st) = Returned sessions ∧
              NoDup (map sum_channel sessions).
Proof.
  intros Hreach. split.
  - intros k s Hk.
    by destruct (reachable_ticks_store_ok cfg st Hreach k s Hk) as (? & ? & ? & ?).
  - destruct (collect_active_ticks (map_to_list (activeSessions st)) [] clk n env st)
      as (_ & _ & kept & Hsub & Hout).
    unfold getAllActiveSessions, get. run_step. rewrite Hout.
    eexists. split; [reflexivity|]. rewrite app_nil_l.
    eapply NoDup_summary_channels; [exact Hsub|]. apply NoDup_fst_map_to_list.
Qed.

Lemma stored_sessions_are_well_formed_witness :
  reachable_ticks cfg_one st_settled ∧
  (∀ k s, activeSessions st_settled !! k = Some s → channel s = k) ∧
  ∃ sessions,
    out (run_ticks getAllActiveSessions clock_settling 3 env_ok st_settled)
    = Returned sessions ∧
    NoDup (map sum_channel sessions).
Proof.
  assert (Hreach : reachable_ticks cfg_one st_settled)
    by apply reachable_ticks_after, reachable_ticks_initial.
  destruct (stored_sessions_are_well_formed cfg_one st_settled clock_settling 3 env_ok
              Hreach) as (Hrec & Hlist).
  split; [exact Hreach|]. split; [|exact Hlist].
  intros k s Hk. by destruct (Hrec k s Hk) as (? & _).
Defined.

(** ** Starts in flight for one channel *)

(** A start for a channel without a session, below the maximum and with a
    valid cached token, sends its session request in the segment that starts
    it; [k] is the rest of the method, which stores the session of the
    response whatever the store holds by then, and returns it unless its
    [expiresAt] cannot be rendered. *)
Lemma createSession_awaits_session cfg ch src tgt opts :
  isAvailable cfg = true →
  ∃ body k,
    (∀ now st tok,
       activeSessions st !! ch = None →
       Z.of_nat (size (activeSessions st)) < maxSessions cfg →
       cached_valid now st = Some tok →
       advance (createSession cfg ch src tgt opts) now st
       = (st, Awaiting (PostSession tok body) (k tok))) ∧
    (∀ tok sid stream ws now' st',
       sid ≠ EmptyString →
       ∃ sd, advance (k tok (Resolved (SessionData (Some sid) stream ws))) now' st'
             = (set_sessions (<[ch := sd]> (activeSessions st')) st',
                Finished (if date_renders (expiresAt sd) then Returned sd
                          else Thrown "Session creation failed: Invalid time value")) ∧
             sessionId sd = sid ∧ channel sd = ch).
Proof.
  intros Hav. eexists _, (λ tok, _). split.
  - intros now st tok Hnone Hsize Hhit. unfold_services. rewrite Hav. run_step.
    rewrite Hnone. run_step.
    destruct (Z.leb_spec (maxSessions cfg) (Z.of_nat (size (activeSessions st))));
      [lia|]. run_step.
    destruct (truthy (cachedToken st) && truthyZ (tokenExpiry st)) eqn:Htest;
      [|by rewrite (cached_valid_untested now st Htest) in Hhit].
    run_step. rewrite Hhit. run_step. reflexivity.
  - intros tok sid stream ws now' st' Hsid. apply String.eqb_neq in Hsid.
    run_step. rewrite Hsid. run_step. cbn [expiresAt].
    destruct (date_renders (now' + cacheTimeout cfg)) eqn:Hdate; run_step.
    all: eexists; split; [f_equal; cbn [expiresAt]; by rewrite Hdate | done].
Qed.

(** X26.  Two starts in flight for one channel both reach the provider:
    with a valid cached token, room in the store and no session for the
    channel, a second start invoked while the first awaits the provider sends
    a session request of its own.  Each start stores the session of its own
    response, and returns it unless its [expiresAt] cannot be rendered; the
    store keeps only the one stored last, in a single slot. *)
Theorem overlapping_starts_same_channel cfg ch src1 tgt1 opts1 src2 tgt2 opts2
    now1 now2 st tok sid1 stream1 ws1 t1 sid2 stream2 ws2 t2 :
  isAvailable cfg = true →
  activeSessions st !! ch = None →
  Z.of_nat (size (activeSessions st)) < maxSessions cfg →
  cached_valid now1 st = Some tok →
  cached_valid now2 st = Some tok →
  sid1 ≠ EmptyString → sid2 ≠ EmptyString →
  let sys := exec (idle session st)
               [Invoke (createSession cfg ch src1 tgt1 opts1) now1;
                Invoke (createSession cfg ch src2 tgt2 opts2) now2;
                Deliver 0 (Resolved (SessionData (Some sid1) stream1 ws1)) t1;
                Deliver 1 (Resolved (SessionData (Some sid2) stream2 ws2)) t2] in
  let ended (sd : session) :=
    Finished (if date_renders (expiresAt sd) then Returned sd
              else Thrown "Session creation failed: Invalid time value") in
  (∃ body1 body2, sent sys = [PostSession tok body1; PostSession tok body2]) ∧
  ∃ sd1 sd2,
    pool sys = [ended sd1; ended sd2] ∧
    sessionId sd1 = sid1 ∧ sessionId sd2 = sid2 ∧
    activeSessions (shared sys) !! ch = Some sd2 ∧
    size (activeSessions (shared sys)) = S (size (activeSessions st)).
Proof.
  intros Hav Hnone Hsize Hhit1 Hhit2 Hsid1 Hsid2 sys ended.
  destruct (createSession_awaits_session cfg ch src1 tgt1 opts1 Hav)
    as (body1 & k1 & Hstart1 & Hresume1).
  destruct (createSession_awaits_session cfg ch src2 tgt2 opts2 Hav)
    as (body2 & k2 & Hstart2 & Hresume2).
  destruct (Hresume1 tok sid1 stream1 ws1 t1 st Hsid1) as (sd1 & Hadv1 & Hid1 & _).
  destruct (Hresume2 tok sid2 stream2 ws2 t2
              (set_sessions (<[ch := sd1]> (activeSessions st)) st) Hsid2)
    as (sd2 & Hadv2 & Hid2 & _).
  subst sys ended. unfold exec, idle. cbn [fold_left step shared pool sent].
  rewrite (Hstart1 now1 st tok Hnone Hsize Hhit1).
  cbn [fold_left step shared pool sent sent_by app].
  rewrite (Hstart2 now2 st tok Hnone Hsize Hhit2).
  cbn [fold_left step shared pool sent sent_by app lookup list_lookup].
  rewrite Hadv1.
  cbn [fold_left step shared pool sent sent_by app lookup list_lookup insert list_insert].
  rewrite Hadv2.
  cbn [fold_left step shared pool sent sent_by app lookup list_lookup insert list_insert
       activeSessions set_sessions].
  split; [eauto|]. exists sd1, sd2. repeat split; try done.
  - apply lookup_insert_eq.
  - rewrite insert_insert_eq. by apply map_size_insert_None.
Qed.

Lemma overlapping_starts_same_channel_witness :
  let sys := exec (idle session st_room1)
               [Invoke (createSession cfg_two "room9" "en" "es" no_options) 2000;
                Invoke (createSession cfg_two "room9" "en" "fr" no_options) 2001;
                Deliver 0 (Resolved (SessionData (Some "a") None None)) 2100;
                Deliver 1 (Resolved (SessionData (Some "b") None None)) 2101] in
  isAvailable cfg_two = true ∧
  ∃ sd1 sd2,
    sessionId sd1 = "a" ∧ sessionId sd2 = "b" ∧
    activeSessions (shared sys) !! "room9" = Some sd2.
Proof.
  intros sys. split; [reflexivity|].
  destruct (overlapping_starts_same_channel cfg_two "room9" "en" "es" no_options
              "en" "fr" no_options 2000 2001 st_room1 "tok" "a" None None 2100
              "b" None None 2101) as (_ & sd1 & sd2 & Hp & H1 & H2 & Hs & _);
    [reflexivity | reflexivity | vm_compute; reflexivity | reflexivity | reflexivity
    | discriminate | discriminate |].
  exists sd1, sd2. repeat split; assumption.
Defined.

Lemma getSessionStatus_returns ch now env st :
  ∃ info, out (run (getSessionStatus ch) now env st) = Returned info ∧
          calls (run (getSessionStatus ch) now env st) = [].
Proof. unfold_services. run_cases; eauto. Qed.

Lemma run_try_catch_bind_assoc {A B C} (t : task A) (g : A → task B)
    (f : B → task C) h now env st :
  run (try_catch (bind (bind t g) f) h) now env st
  = run (try_catch (bind t (λ a, bind (g a) f)) h) now env st.
Proof.
  revert now st. induction t as [a|e|k IH|st' k IH|k IH|req k IH]; intros now st; simpl;
    try done; try apply IH.
  by rewrite IH.
Qed.

Lemma collect_active_try_bind {B} entries acc (f : list session_summary → task B) h
    now env st :
  run (try_catch (bind (collect_active entries acc) f) h) now env st
  = run (try_catch (f (acc ++ map (λ p, summary p.1 p.2)
                              (filter (λ p, now < expiresAt p.2) entries))%list) h)
      now env st.
Proof.
  revert acc. induction entries as [|[ch s] rest IH]; intros acc; simpl.
  - by rewrite app_nil_r.
  - unfold date_now. run_step. rewrite filter_cons. simpl.
    destruct (Z.ltb_spec now (expiresAt s)).
    + rewrite decide_True by done. simpl. rewrite IH. by rewrite <- app_assoc.
    + rewrite decide_False by lia. apply IH.
Qed.

(** X27.  The two read handlers always answer, and never 500.
    [getSessionStatus] of the controller answers 400 without a channel, and
    otherwise 200 with the status that [getSessionStatus] of the service
    returns, leaving the store as that call leaves it.  [getAllSessions]
    answers 200 with a list and with statistics that count every stored
    session, sends nothing and changes nothing. *)
Theorem read_handlers_reply cfg ch now env st :
  let r := run (controller_getSessionStatus ch) now env st in
  let a := run (getAllSessions cfg) now env st in
  (∃ rep, out r = Returned rep ∧ calls r = [] ∧
     if truthy ch then
       ∃ c info, ch = Some c ∧ rep = reply_ok (Some info) None ∧
         out (run (getSessionStatus c) now env st) = Returned info ∧
         final r = final (run (getSessionStatus c) now env st)
     else reply_code rep = 400 ∧ final r = st) ∧
  (∃ sessions x, out a = Returned (reply_ok (Some (sessions, x)) None) ∧
     stats_activeSessions x = size (activeSessions st) ∧
     final a = st ∧ calls a = []).
Proof.
  intros r a. subst r a. split.
  - unfold controller_getSessionStatus, truthy.
    destruct ch as [c|]; [|simpl; eexists; split; [reflexivity | done]].
    destruct (String.eqb c EmptyString); cbn [negb];
      [simpl; eexists; split; [reflexivity | done]|].
    rewrite run_reply. cbn [out calls final].
    destruct (getSessionStatus_returns c now env st) as (info & Hout & Hcalls).
    rewrite Hout, Hcalls. eexists. split; [reflexivity|]. split; [done|].
    by exists c, info.
  - unfold getAllSessions, getStats, getAllActiveSessions, get. run_step.
    rewrite collect_active_try_bind. run_step.
    rewrite run_try_catch_bind_assoc, collect_active_try_bind. run_step.
    eexists _, _. split; [reflexivity|]. done.
Qed.

(** ** Capacity when calls follow one another *)

(** X28.  Calls that follow one another keep the store within the
    maximum: for a maximum that is not negative, in every state reached on
    a clock that ticks the store holds at most [maxSessions] sessions,
    expired ones included, so at most [maxSessions] that have not expired
    at any time. *)
Theorem store_within_maximum cfg st now :
  0 <= maxSessions cfg →
  reachable_ticks cfg st →
  Z.of_nat (size (live now (activeSessions st))) <= Z.of_nat (size (activeSessions st)) ∧
  Z.of_nat (size (activeSessions st)) <= maxSessions cfg.
Proof.
  intros Hmax Hreach. split.
  - apply inj_le, live_size.
  - by apply reachable_ticks_size.
Qed.

Lemma store_within_maximum_witness :
  0 <= maxSessions cfg_one ∧
  reachable_ticks cfg_one st_settled ∧
  activeSessions st_settled !! "room1" = Some session_settled ∧
  Z.of_nat (size (activeSessions st_settled)) <= maxSessions cfg_one.
Proof.
  assert (Hmax : 0 <= maxSessions cfg_one) by (vm_compute; discriminate).
  assert (Hreach : reachable_ticks cfg_one st_settled)
    by apply reachable_ticks_after, reachable_ticks_initial.
  destruct (store_within_maximum cfg_one st_settled 2000 Hmax Hreach) as (_ & Hsize).
  split; [exact Hmax|]. split; [exact Hreach|]. split; [reflexivity | exact Hsize].
Defined.

(** X29.  The capacity gate of [createSession], for a channel without a
    session that is still valid.  An expired session of the channel has been
    deleted by then.  When the sessions of the other channels that have not
    expired at the reading of the sweep fill the store, the start is
    rejected, only those sessions are left and no provider call has been
    made; when they do not fill it, the start goes on to the provider. *)
Theorem start_rejected_when_full cfg ch src tgt opts clk n env st :
  isAvailable cfg = true →
  live (clk n) (activeSessions st) !! ch = None →
  let r := run_ticks (createSession cfg ch src tgt opts) clk n env st in
  let swept_at := match activeSessions st !! ch with
                  | Some _ => clk (S n)
                  | None => clk n
                  end in
  let kept := live swept_at (delete ch (activeSessions st)) in
  (maxSessions cfg <= Z.of_nat (size kept) →
   out r = Thrown "Session creation failed: Maximum number of active sessions reached"
   ∧ calls r = []
   ∧ activeSessions (final r) = kept) ∧
  (Z.of_nat (size kept) < maxSessions cfg → calls r ≠ []).
Proof.
  intros Hav Hno r swept_at kept. subst r swept_at kept. rewrite live_lookup in Hno.
  unfold_services. rewrite Hav. run_step.
  destruct (activeSessions st !! ch) as [s|] eqn:Hch; run_step.
  - destruct (Z.leb_spec (expiresAt s) (clk n)) as [Hexp|]; [|done]. run_step.
    pose proof (sweep_live (clk (S n)) (delete ch (activeSessions st))) as Hsweep.
    pose proof (live_size (clk (S n)) (delete ch (activeSessions st))) as Hsize.
    split; intros Hcap.
    + run_cases; rewrite ?Hsweep in *; first [done | solve_capacity].
    + run_cases; rewrite ?Hsweep in *; first [discriminate | solve_capacity].
  - rewrite (delete_id _ _ Hch).
    pose proof (sweep_live (clk n) (activeSessions st)) as Hsweep.
    pose proof (live_size (clk n) (activeSessions st)) as Hsize.
    split; intros Hcap.
    + run_cases; rewrite ?Hsweep in *; first [done | solve_capacity].
    + run_cases; rewrite ?Hsweep in *; first [discriminate | solve_capacity].
Qed.

Lemma start_rejected_when_full_witness :
  isAvailable cfg_one = true ∧
  maxSessions cfg_one = 1 ∧
  out (run_ticks (createSession cfg_one "room2" "en" "fr" no_options) clock_settling 3
         env_ok st_settled)
  = Thrown "Session creation failed: Maximum number of active sessions reached" ∧
  calls (run_ticks (createSession cfg_one "room1" "en" "es" no_options) clock_settling 0
           env_ok initial_state) ≠ [].
Proof.
  split; [reflexivity|]. split; [reflexivity|]. split.
  - destruct (start_rejected_when_full cfg_one "room2" "en" "fr" no_options
                clock_settling 3 env_ok st_settled) as ((Hout & _) & _);
      [reflexivity | reflexivity | vm_compute; discriminate | exact Hout].
  - destruct (start_rejected_when_full cfg_one "room1" "en" "es" no_options
                clock_settling 0 env_ok initial_state) as (_ & Hcalls);
      [reflexivity | reflexivity |].
    apply Hcalls. vm_compute. reflexivity.
Defined.

(** ** The expiry window *)

Lemma getActiveSession_ticks_valid ch clk n env st s :
  activeSessions st !! ch = Some s → clk n < expiresAt s →
  out (run_ticks (getActiveSession ch) clk n env st) = Returned (Some s).
Proof.
  intros Hs Hlt. unfold_services. run_step. rewrite Hs. run_step.
  destruct (Z.leb_spec (expiresAt s) (clk n)); [lia|]. done.
Qed.

(** X30.  The expiry window on a clock that ticks, in every state reached
    by calls that follow one another and for a lifetime that is positive.
    After a start that returned a session, a read of the channel made with
    no time passed since the last read of the clock by the start returns
    that session, and its status is [active].  The session is the one that
    was stored already, or it is new: then its [createdAt] is the reading
    before the last and its [expiresAt] is the last reading plus
    [cacheTimeout].  No call extends a stored session: a session found under
    a channel after a call is the very record that was there before it, or
    it is the record of a start made when the channel had no valid session,
    and expires [cacheTimeout] after the last reading of that start. *)
Theorem expiry_window_readings cfg st ch src tgt opts clk n env sd env' :
  reachable_ticks cfg st →
  0 < cacheTimeout cfg →
  let r := run_ticks (createSession cfg ch src tgt opts) clk n env st in
  let m := reads_after (createSession cfg ch src tgt opts) clk n env st in
  out r = Returned sd →
  clk m = clk (pred m) →
  out (run_ticks (getActiveSession ch) clk m env' (final r)) = Returned (Some sd) ∧
  status sd = active ∧
  (activeSessions st !! ch = Some sd ∨
   createdAt sd = clk (pred (pred m)) ∧ expiresAt sd = clk (pred m) + cacheTimeout cfg) ∧
  ∀ c clk' n' env'' k s',
    activeSessions (after_ticks cfg c clk' n' env'' st) !! k = Some s' →
    activeSessions st !! k = Some s' ∨
    ∃ src' tgt' opts',
      c = CallCreateSession k src' tgt' opts' ∧
      live (clk' n') (activeSessions st) !! k = None ∧
      expiresAt s'
      = clk' (pred (reads_after (createSession cfg k src' tgt' opts') clk' n' env'' st))
        + cacheTimeout cfg.
Proof.
  intros Hreach Httl r m Hout Hstill.
  pose proof (reachable_ticks_store_ok cfg st Hreach) as Hrec.
  assert (Hstart :
    out (run_ticks (getActiveSession ch) clk m env' (final r)) = Returned (Some sd) ∧
    status sd = active ∧
    (activeSessions st !! ch = Some sd ∨
     createdAt sd = clk (pred (pred m)) ∧ expiresAt sd = clk (pred m) + cacheTimeout cfg)).
  { subst r m.
    destruct (createSession_ticks_cases cfg ch src tgt opts clk n env st)
      as [(_ & _ & Hthrown)|[(_ & s & Hs & Hlt & Hret & Hfin & Hreads)|
          [(_ & _ & [msg Hthrown] & _)|
           (_ & _ & sd' & mid & Hm & _ & _ & _ & _ & Hact & _ & Hc & He & [Hret|Hthrown])]]];
      try congruence.
    - rewrite Hret in Hout. injection Hout as ->. rewrite Hfin.
      rewrite Hreads in Hstill |- *. cbn [Nat.pred] in Hstill.
      split; [apply getActiveSession_ticks_valid; [done | lia]|].
      split; [|by left]. by destruct (Hrec ch sd Hs) as (_ & _ & ? & _).
    - rewrite Hret in Hout. injection Hout as ->.
      split; [|split; [done | by right]].
      apply getActiveSession_ticks_valid; [|lia].
      rewrite Hm. apply lookup_insert_eq. }
  destruct Hstart as (Hget & Hact & Hnew).
  split; [exact Hget|]. split; [exact Hact|]. split; [exact Hnew|].
  intros c clk' n' env'' k s' Hk.
  destruct c as [ch0 src0 tgt0 opts0| | | | | | | | | | |].
  2-12: (left; eapply lookup_weaken; [exact Hk|];
         apply after_ticks_sessions_subseteq; intros; discriminate).
  simpl in Hk.
  destruct (createSession_ticks_cases cfg ch0 src0 tgt0 opts0 clk' n' env'' st)
    as [(_ & Hfin & _)|[(_ & s & _ & _ & _ & Hfin & _)|
        [(_ & _ & _ & Hsub & _)|
         (_ & Hlive & sd' & mid & Hm & Hsub & _ & _ & _ & _ & _ & _ & He & _)]]].
  - left. by rewrite Hfin in Hk.
  - left. by rewrite Hfin in Hk.
  - left. by eapply lookup_weaken.
  - rewrite Hm in Hk. destruct (decide (ch0 = k)) as [->|Hne].
    + rewrite lookup_insert_eq in Hk. injection Hk as ->. right. eauto 8.
    + rewrite lookup_insert_ne in Hk by done. left. by eapply lookup_weaken.
Qed.

Lemma expiry_window_readings_witness :
  reachable_ticks cfg_one initial_state ∧
  0 < cacheTimeout cfg_one ∧
  clock_settling 3 = clock_settling 2 ∧
  out (run_ticks (getActiveSession "room1") clock_settling 3 env_ok st_settled)
  = Returned (Some session_settled) ∧
  status session_settled = active ∧
  activeSessions st_settled !! "room1" = Some session_settled ∧
  (activeSessions initial_state !! "room1" = Some session_settled ∨
   ∃ src tgt opts,
     CallCreateSession "room1" "en" "es" no_options = CallCreateSession "room1" src tgt opts ∧
     live (clock_settling 0) (activeSessions initial_state) !! "room1" = None ∧
     expiresAt session_settled
     = clock_settling
         (pred (reads_after (createSession cfg_one "room1" src tgt opts) clock_settling 0
                  env_ok initial_state))
       + cacheTimeout cfg_one).
Proof.
  pose proof (reachable_ticks_initial cfg_one) as Hreach.
  assert (Httl : 0 < cacheTimeout cfg_one) by (vm_compute; reflexivity).
  destruct (expiry_window_readings cfg_one initial_state "room1" "en" "es" no_options
              clock_settling 0 env_ok session_settled env_ok Hreach Httl)
    as (Hget & Hact & _ & Hkept); [reflexivity | reflexivity |].
  assert (Hstored : activeSessions st_settled !! "room1" = Some session_settled)
    by reflexivity.
  split; [exact Hreach|]. split; [exact Httl|]. split; [reflexivity|].
  split; [exact Hget|]. split; [exact Hact|]. split; [exact Hstored|].
  exact (Hkept (CallCreateSession "room1" "en" "es" no_options) clock_settling 0%nat
           env_ok "room1" session_settled Hstored).
Defined.
